(** * NTRTsim: the Corde anchor (cordeAnchor.cpp) and tgDataManager::step

    A shallow embedding of [cordeAnchor] (the coupling between one Bullet
    rigid body and one position element of a Corde rod) and of
    [tgDataManager::step], with the properties of the specification that
    concern them.

    Scalars.  [btScalar] is a build-time choice in Bullet (float or double).
    The embedding is written once over a small interface of scalar
    operations, [Scalar], and used at two instances:
    - [Qc], exact rational arithmetic, at which the general statements are
      proved: they describe the formulas the code computes, with rounding,
      infinities and NaN left out;
    - [float], IEEE binary64 as the kernel implements it, at which concrete
      runs are replayed.
    Statements that need no law of arithmetic, or only what the scalar type
    says of its zero, are proved for every scalar type.

    Memory.  The anchor holds raw pointers to objects it does not own.  The
    embedding keeps rigid bodies, position elements and anchors in three
    stores indexed by address; a pointer is an optional address.  A method
    is a computation over these stores that returns or fails; it fails on an
    [assert] whose condition is false (assertions are compiled in) and on a
    null or dangling pointer that is dereferenced.

    Collaborators.  Bullet's vectors, transforms and rigid bodies and the
    Corde position element are declared outside the files at hand; they are
    modelled by what the anchor reads and writes of them.  The rigid body
    records the calls it receives instead of integrating them. *)

From stdpp Require Import base option gmap numbers.
From Stdlib Require Import QArith Qcanon Floats String Ring Field DecimalString DecimalNat.

Set Default Proof Using "Type".

(** ** Scalars *)

Class Scalar (K : Type) : Type := {
  szero : K;
  sone : K;
  sadd : K -> K -> K;
  ssub : K -> K -> K;
  smul : K -> K -> K;
  sdiv : K -> K -> K;
  sopp : K -> K;
  sltb : K -> K -> bool;   (* x < y  *)
  sleb : K -> K -> bool;   (* x <= y *)
  seqb : K -> K -> bool    (* x == y *)
}.

Declare Scope scalar_scope.
Delimit Scope scalar_scope with sc.
Notation "x +s y" := (sadd x y) (at level 50, left associativity) : scalar_scope.
Notation "x -s y" := (ssub x y) (at level 50, left associativity) : scalar_scope.
Notation "x *s y" := (smul x y) (at level 40, left associativity) : scalar_scope.
Notation "x /s y" := (sdiv x y) (at level 40, left associativity) : scalar_scope.
Notation "-s x" := (sopp x) (at level 35, right associativity) : scalar_scope.

(** [pow(x, n.0)] for the two exponents the source uses, 1.0 and 2.0. *)
Fixpoint spow `{Scalar K} (x : K) (n : nat) : K :=
  match n with
  | O => sone
  | Datatypes.S k => smul x (spow x k)
  end.

(** ** Bullet's LinearMath, as far as the anchor uses it *)

Section LinearMath.
Context `{Scalar K}.
Local Open Scope scalar_scope.

(** Modelled from the spec: Bullet's [btVector3] is not part of the
    sources; the spec's [Vec3], with Bullet's operators. *)
Record btVector3 : Type := mkVec { vx : K; vy : K; vz : K }.

Definition vzero : btVector3 := mkVec szero szero szero.

(** [operator+], [operator-] (binary and unary) *)
Definition vadd (a b : btVector3) : btVector3 :=
  mkVec (vx a +s vx b) (vy a +s vy b) (vz a +s vz b).
Definition vsub (a b : btVector3) : btVector3 :=
  mkVec (vx a -s vx b) (vy a -s vy b) (vz a -s vz b).
Definition vneg (a : btVector3) : btVector3 :=
  mkVec (-s vx a) (-s vy a) (-s vz a).

(** [operator*(v, s)], and [operator*(s, v)] which Bullet defines as
    [v * s] *)
Definition vscale (a : btVector3) (s : K) : btVector3 :=
  mkVec (vx a *s s) (vy a *s s) (vz a *s s).
Definition sscale (s : K) (a : btVector3) : btVector3 := vscale a s.

Definition vdot (a b : btVector3) : K :=
  vx a *s vx b +s vy a *s vy b +s vz a *s vz b.
Definition vcross (a b : btVector3) : btVector3 :=
  mkVec (vy a *s vz b -s vz a *s vy b)
        (vz a *s vx b -s vx a *s vz b)
        (vx a *s vy b -s vy a *s vx b).

(** Modelled from the spec: Bullet's [btMatrix3x3] (three rows) and
    [btTransform] are not part of the sources; the spec's [Transform]
    (rotation + translation), with Bullet's operators. *)
Record btMatrix3x3 : Type := mkMat { row0 : btVector3; row1 : btVector3; row2 : btVector3 }.

Definition transpose (m : btMatrix3x3) : btMatrix3x3 :=
  mkMat (mkVec (vx (row0 m)) (vx (row1 m)) (vx (row2 m)))
        (mkVec (vy (row0 m)) (vy (row1 m)) (vy (row2 m)))
        (mkVec (vz (row0 m)) (vz (row1 m)) (vz (row2 m))).

Definition mat_vec (m : btMatrix3x3) (v : btVector3) : btVector3 :=
  mkVec (vdot (row0 m) v) (vdot (row1 m) v) (vdot (row2 m) v).

Definition mat_mul (m n : btMatrix3x3) : btMatrix3x3 :=
  let nt := transpose n in
  mkMat (mkVec (vdot (row0 m) (row0 nt)) (vdot (row0 m) (row1 nt)) (vdot (row0 m) (row2 nt)))
        (mkVec (vdot (row1 m) (row0 nt)) (vdot (row1 m) (row1 nt)) (vdot (row1 m) (row2 nt)))
        (mkVec (vdot (row2 m) (row0 nt)) (vdot (row2 m) (row1 nt)) (vdot (row2 m) (row2 nt))).

Definition mat_id : btMatrix3x3 :=
  mkMat (mkVec sone szero szero) (mkVec szero sone szero) (mkVec szero szero sone).

Record btTransform : Type := mkTransform { m_basis : btMatrix3x3; m_origin : btVector3 }.

(** [btTransform::operator*(const btVector3& x)]:
    [x.dot3(m_basis[0], m_basis[1], m_basis[2]) + m_origin] *)
Definition transform_apply (t : btTransform) (x : btVector3) : btVector3 :=
  vadd (mkVec (vdot x (row0 (m_basis t))) (vdot x (row1 (m_basis t))) (vdot x (row2 (m_basis t))))
       (m_origin t).

(** [btTransform::inverse()]:
    [inv = m_basis.transpose(); return btTransform(inv, inv * -m_origin)] *)
Definition transform_inverse (t : btTransform) : btTransform :=
  let inv := transpose (m_basis t) in
  mkTransform inv (mat_vec inv (vneg (m_origin t))).

(** The basis of a rigid body's world transform is a rotation: its rows are
    orthonormal. *)
Definition is_rotation (m : btMatrix3x3) : Prop :=
  mat_mul m (transpose m) = mat_id.
End LinearMath.

Arguments btVector3 K : clear implicits.
Arguments btMatrix3x3 K : clear implicits.
Arguments btTransform K : clear implicits.

(** ** The objects the anchor refers to *)

(** An address in one of the stores; a C++ pointer is [None] when it is
    [NULL]. *)
Definition addr : Type := N.
Definition ptr : Type := option addr.

Inductive Failure : Type :=
  | AssertionFailed (cond : string)   (* [assert(cond)] with [cond] false *)
  | InvalidPointer.                   (* a null or dangling pointer dereferenced *)

Inductive Outcome (A : Type) : Type :=
  | Ok (a : A)
  | Fail (f : Failure).
Arguments Ok {A} a.
Arguments Fail {A} f.

Section Corde.
Context `{Scalar K}.
Local Open Scope scalar_scope.

#[local] Abbreviation vec := (btVector3 K).

(** What the anchor asks of the rigid body, in call order (the spec's
    impulse queue). *)
Inductive BodyCall : Type :=
  | Activate
  | ApplyImpulse (impulse rel_pos : vec).

(** Modelled from the spec: Bullet's [btRigidBody] is not part of the
    sources; the rigid body proxy of the spec: world transform, inverse
    mass, velocities, and the calls it received.  As in Bullet, the centre of
    mass is the origin of the world transform and the velocity at a point is
    the linear velocity plus the angular velocity crossed with the point. *)
Record btRigidBody : Type := mkBody {
  m_worldTransform : btTransform K;
  m_inverseMass : K;
  m_linearVelocity : vec;
  m_angularVelocity : vec;
  received : list BodyCall
}.

Definition getWorldTransform (b : btRigidBody) : btTransform K := m_worldTransform b.
Definition getCenterOfMassPosition (b : btRigidBody) : vec := m_origin (m_worldTransform b).
Definition getInvMass (b : btRigidBody) : K := m_inverseMass b.
Definition getVelocityInLocalPoint (b : btRigidBody) (rel_pos : vec) : vec :=
  vadd (m_linearVelocity b) (vcross (m_angularVelocity b) rel_pos).

(** Modelled from the spec: [CordeModel::CordePositionElement] is declared
    in cordeModel.h, which is not part of the sources; the flexible node
    proxy of the spec: predicted position and velocity, mass, accumulated
    force, and the is-anchor flag. *)
Record CordePositionElement : Type := mkElement {
  pos_new : vec;
  vel_new : vec;
  mass : K;
  force : vec;
  isAnchor : bool
}.

Record cordeAnchor : Type := mkAnchor {
  attachedBody : ptr;
  m_attachedElement : ptr;
  m_attachedQuaternion : ptr;
  attachedRelativeOriginalPosition : vec
}.

Record World : Type := mkWorld {
  bodies : gmap addr btRigidBody;
  elements : gmap addr CordePositionElement;
  anchors : gmap addr cordeAnchor
}.

(** *** State and failure *)

Definition M (A : Type) : Type := World -> Outcome (A * World).

Definition ret {A} (a : A) : M A := fun w => Ok (a, w).
Definition bind {A B} (m : M A) (k : A -> M B) : M B :=
  fun w => match m w with
           | Ok (a, w') => k a w'
           | Fail f => Fail f
           end.
Definition fail {A} (f : Failure) : M A := fun _ => Fail f.

#[global] Instance M_ret : MRet M := @ret.
#[global] Instance M_bind : MBind M := fun A B k m => bind m k.

Definition deref {A} (store : World -> gmap addr A) (p : ptr) : M A :=
  fun w => match p with
           | Some a => match store w !! a with
                       | Some x => Ok (x, w)
                       | None => Fail InvalidPointer
                       end
           | None => Fail InvalidPointer
           end.

Definition assert_ptr (cond : string) (p : ptr) : M unit :=
  match p with
  | Some _ => ret tt
  | None => fail (AssertionFailed cond)
  end.

Definition set_body (a : addr) (b : btRigidBody) : M unit :=
  fun w => Ok (tt, mkWorld (<[a := b]> (bodies w)) (elements w) (anchors w)).
Definition set_element (a : addr) (e : CordePositionElement) : M unit :=
  fun w => Ok (tt, mkWorld (bodies w) (<[a := e]> (elements w)) (anchors w)).
Definition set_anchor (a : addr) (x : cordeAnchor) : M unit :=
  fun w => Ok (tt, mkWorld (bodies w) (elements w) (<[a := x]> (anchors w))).

(** An update through a pointer: the pointee is read, changed and written
    back. *)
Definition update_body (p : ptr) (f : btRigidBody -> btRigidBody) : M unit :=
  b ← deref bodies p;
  match p with Some a => set_body a (f b) | None => fail InvalidPointer end.
Definition update_element (p : ptr) (f : CordePositionElement -> CordePositionElement) : M unit :=
  e ← deref elements p;
  match p with Some a => set_element a (f e) | None => fail InvalidPointer end.

(** Modelled from the spec: [CordePositionElement::applyForce] is not part
    of the sources; the force is added to the node's force accumulator. *)
Definition applyForce (p : ptr) (f : vec) : M unit :=
  update_element p (fun e =>
    mkElement (pos_new e) (vel_new e) (mass e) (vadd (force e) f) (isAnchor e)).

Definition set_isAnchor (p : ptr) (flag : bool) : M unit :=
  update_element p (fun e =>
    mkElement (pos_new e) (vel_new e) (mass e) (force e) flag).

Definition call_body (p : ptr) (c : BodyCall) : M unit :=
  update_body p (fun b =>
    mkBody (m_worldTransform b) (m_inverseMass b) (m_linearVelocity b)
           (m_angularVelocity b) (received b ++ [c])).
Definition activate (p : ptr) : M unit := call_body p Activate.
Definition applyImpulse (p : ptr) (impulse rel_pos : vec) : M unit :=
  call_body p (ApplyImpulse impulse rel_pos).
End Corde.

Arguments BodyCall K : clear implicits.
Arguments btRigidBody K : clear implicits.
Arguments CordePositionElement K : clear implicits.
Arguments cordeAnchor K : clear implicits.
Arguments World K : clear implicits.
Arguments M K A : clear implicits.

(** ** cordeAnchor *)

Section Anchor.
Context `{Scalar K}.
Local Open Scope scalar_scope.

#[local] Abbreviation vec := (btVector3 K).

(** [cordeAnchor::cordeAnchor(body, element, qElement, worldPos)], run on
    the storage at [this].  The member initialisers read the body's world
    transform, and the first statement writes through [m_attachedElement],
    before the three assertions are reached. *)
Definition cordeAnchor_ctor (this : addr) (body element qElement : ptr)
    (worldPos : vec) : M K unit :=
  b ← deref bodies body;
  set_anchor this
    (mkAnchor body element qElement
       (transform_apply (transform_inverse (getWorldTransform b)) worldPos));;
  set_isAnchor element true;;
  assert_ptr "body" body;;
  assert_ptr "element" element;;
  assert_ptr "qElement" qElement.

(** [cordeAnchor::~cordeAnchor()] *)
Definition cordeAnchor_dtor (this : addr) : M K unit :=
  a ← deref anchors (Some this);
  set_isAnchor (m_attachedElement a) false;;
  set_anchor this
    (mkAnchor None None (m_attachedQuaternion a) (attachedRelativeOriginalPosition a)).

(** [cordeAnchor::getRelativePosition()] *)
Definition getRelativePosition (this : addr) : M K vec :=
  a ← deref anchors (Some this);
  b ← deref bodies (attachedBody a);
  let tr := getWorldTransform b in
  let worldPos := transform_apply tr (attachedRelativeOriginalPosition a) in
  b' ← deref bodies (attachedBody a);
  mret (vsub worldPos (getCenterOfMassPosition b')).

(** [cordeAnchor::getWorldPosition()] *)
Definition getWorldPosition (this : addr) : M K vec :=
  a ← deref anchors (Some this);
  b ← deref bodies (attachedBody a);
  let tr := getWorldTransform b in
  mret (transform_apply tr (attachedRelativeOriginalPosition a)).

(** The two scalar locals of [solve] that both coupling modes share:
    [rMass = getInvMass() > 0.0 ? 1.0 / getInvMass() : 0.0] and
    [massRatio = 1.f] if [rMass == 0], else [rMass * 1.0 / (rMass + sMass)]. *)
Definition solve_rMass (invMass : K) : K :=
  if sltb szero invMass then sone /s invMass else szero.
Definition solve_massRatio (rMass sMass : K) : K :=
  if seqb rMass szero then sone else rMass *s sone /s (rMass +s sMass).

(** The body of [solve] when [SOLVE_VELOCITY] is not defined (the build the
    source selects).  The locals [rbLength] and [softLength] are computed
    and never read; they are left out. *)
Definition solve_position (this : addr) (a : cordeAnchor K) (dt idt : K) : M K unit :=
  rbPos ← getWorldPosition this;
  e ← deref elements (m_attachedElement a);
  let softPos := pos_new e in
  let posDiff := vsub rbPos softPos in
  b ← deref bodies (attachedBody a);
  let rMass := solve_rMass (getInvMass b) in
  let sMass := mass e in
  let massRatio := solve_massRatio rMass sMass in
  let rSoft := vscale posDiff massRatio in
  let rRigid := vscale (vneg posDiff) (sone -s massRatio) in
  let fSoft := sscale (spow idt 2 *s sMass) rSoft in
  applyForce (m_attachedElement a) fSoft;;
  e' ← deref elements (m_attachedElement a);
  let fRigid := vadd (sscale (spow idt 1 *s rMass) rRigid) (vscale (force e') dt) in
  activate (attachedBody a);;
  rel ← getRelativePosition this;
  applyImpulse (attachedBody a) fRigid rel.

(** The body of [solve] when [SOLVE_VELOCITY] is defined. *)
Definition solve_velocity (this : addr) (a : cordeAnchor K) (dt idt : K) : M K unit :=
  rel0 ← getRelativePosition this;
  b ← deref bodies (attachedBody a);
  let rbVel := getVelocityInLocalPoint b rel0 in
  e ← deref elements (m_attachedElement a);
  let softVel := vel_new e in
  let velDiff := vsub rbVel softVel in
  let rMass := solve_rMass (getInvMass b) in
  let sMass := mass e in
  let massRatio := solve_massRatio rMass sMass in
  let vSoft := vscale velDiff massRatio in
  let vRigid := vscale (vneg velDiff) (sone -s massRatio) in
  let fSoft := sscale (idt *s sMass) vSoft in
  applyForce (m_attachedElement a) fSoft;;
  let fRigid := sscale rMass vRigid in
  activate (attachedBody a);;
  rel ← getRelativePosition this;
  applyImpulse (attachedBody a) fRigid rel.

(** [cordeAnchor::solve(dt)]; [SOLVE_VELOCITY] is the preprocessor switch
    (the source leaves it undefined: [false]). *)
Definition solve (SOLVE_VELOCITY : bool) (this : addr) (dt : K) : M K unit :=
  a ← deref anchors (Some this);
  assert_ptr "attachedBody" (attachedBody a);;
  assert_ptr "m_attachedElement" (m_attachedElement a);;
  let idt := sone /s dt in
  if SOLVE_VELOCITY then solve_velocity this a dt idt
  else solve_position this a dt idt.
End Anchor.

(** ** tgDataManager *)

Inductive exception : Type :=
  | invalid_argument (what : string).

Inductive Completion : Type :=
  | Returns
  | Throws (e : exception)
  | Aborts (cond : string).

Record tgDataManager : Type := mkDataManager {
  m_sensors : list ptr;
  m_sensorInfos : list ptr;
  m_senseables : list ptr
}.

(** [tgDataManager::invariant()] *)
Definition invariant (m : tgDataManager) : bool := true.

(** [tgDataManager::step(dt)]: how the call completes, and the manager
    afterwards. *)
Definition tgDataManager_step `{Scalar K} (dt : K) (m : tgDataManager)
    : Completion * tgDataManager :=
  if sleb dt szero then (Throws (invalid_argument "dt is not positive"), m)
  else if invariant m then (Returns, m)
  else (Aborts "invariant()", m).

(** ** The two scalar instances *)

(** Exact rationals in canonical form. *)
Definition Qc_ltb (x y : Qc) : bool :=
  match (x ?= y)%Qc with Lt => true | _ => false end.
Definition Qc_leb (x y : Qc) : bool :=
  match (x ?= y)%Qc with Gt => false | _ => true end.

#[global] Instance Qc_Scalar : Scalar Qc := {|
  szero := 0%Qc;
  sone := 1%Qc;
  sadd := Qcplus;
  ssub := Qcminus;
  smul := Qcmult;
  sdiv := Qcdiv;
  sopp := Qcopp;
  sltb := Qc_ltb;
  sleb := Qc_leb;
  seqb := Qc_eq_bool
|}.

(** IEEE 754 binary64 ([btScalar] in a double-precision build). *)
#[global] Instance float_Scalar : Scalar float := {|
  szero := 0%float;
  sone := 1%float;
  sadd := PrimFloat.add;
  ssub := PrimFloat.sub;
  smul := PrimFloat.mul;
  sdiv := PrimFloat.div;
  sopp := PrimFloat.opp;
  sltb := PrimFloat.ltb;
  sleb := PrimFloat.leb;
  seqb := PrimFloat.eqb
|}.

(** The rational [n / d]. *)
Definition q (n : Z) (d : positive) : Qc := Q2Qc (n # d).

(** ** Vocabulary of the statements *)

Section Observations.
Context `{Scalar K}.
Local Open Scope scalar_scope.

(** The anchor at [this] is [a]; it points to the body [b] at [pb] and to
    the position element [e] at [pe]. *)
Definition Attached (w : World K) (this : addr) (a : cordeAnchor K)
    (pb : addr) (b : btRigidBody K) (pe : addr) (e : CordePositionElement K) : Prop :=
  anchors w !! this = Some a /\
  attachedBody a = Some pb /\ bodies w !! pb = Some b /\
  m_attachedElement a = Some pe /\ elements w !! pe = Some e.

(** The body [b] after it received the calls [cs]. *)
Definition body_after (b : btRigidBody K) (cs : list (BodyCall K)) : btRigidBody K :=
  mkBody (m_worldTransform b) (m_inverseMass b) (m_linearVelocity b)
         (m_angularVelocity b) (received b ++ cs).

(** The element [e] with [f] added to its force accumulator, and with its
    is-anchor flag set to [flag]. *)
Definition element_forced (e : CordePositionElement K) (f : btVector3 K)
    : CordePositionElement K :=
  mkElement (pos_new e) (vel_new e) (mass e) (vadd (force e) f) (isAnchor e).
Definition element_flagged (e : CordePositionElement K) (flag : bool)
    : CordePositionElement K :=
  mkElement (pos_new e) (vel_new e) (mass e) (force e) flag.

(** The anchor's world position and the node's predicted position, as
    [solve] reads them. *)
Definition anchor_rbPos (a : cordeAnchor K) (b : btRigidBody K) : btVector3 K :=
  transform_apply (m_worldTransform b) (attachedRelativeOriginalPosition a).
Definition anchor_posDiff (a : cordeAnchor K) (b : btRigidBody K)
    (e : CordePositionElement K) : btVector3 K :=
  vsub (anchor_rbPos a b) (pos_new e).
Definition anchor_relPos (a : cordeAnchor K) (b : btRigidBody K) : btVector3 K :=
  vsub (anchor_rbPos a b) (getCenterOfMassPosition b).
Definition anchor_velDiff (a : cordeAnchor K) (b : btRigidBody K)
    (e : CordePositionElement K) : btVector3 K :=
  vsub (getVelocityInLocalPoint b (anchor_relPos a b)) (vel_new e).
Definition anchor_massRatio (b : btRigidBody K) (e : CordePositionElement K) : K :=
  solve_massRatio (solve_rMass (getInvMass b)) (mass e).

(** A history of constructor and destructor calls. *)
Inductive AnchorOp : Type :=
  | Construct (this : addr) (body element qElement : ptr) (worldPos : btVector3 K)
  | Destroy (this : addr).

Definition run_op (o : AnchorOp) : M K unit :=
  match o with
  | Construct this body element qElement worldPos =>
      cordeAnchor_ctor this body element qElement worldPos
  | Destroy this => cordeAnchor_dtor this
  end.

Fixpoint run_ops (os : list AnchorOp) : M K unit :=
  match os with
  | [] => mret tt
  | o :: os' => run_op o ;; run_ops os'
  end.

(** A scene with one body at address 1 (unrotated, at [origin]), one
    position element at address 2 and one anchor at address 7 joining
    them. *)
Definition scene (origin : btVector3 K) (invMass : K) (restOffset : btVector3 K)
    (softPos : btVector3 K) (sMass : K) (f : btVector3 K) : World K :=
  mkWorld {[ 1%N := mkBody (mkTransform mat_id origin) invMass vzero vzero [] ]}
          {[ 2%N := mkElement softPos vzero sMass f true ]}
          {[ 7%N := mkAnchor (Some 1%N) (Some 2%N) (Some 3%N) restOffset ]}.

(** What a test observes after a call: the node's accumulated force and the
    calls the body received. *)
Definition observe (r : Outcome (unit * World K))
    : option (btVector3 K * list (BodyCall K)) :=
  match r with
  | Ok (_, w) =>
      match elements w !! 2%N, bodies w !! 1%N with
      | Some e, Some b => Some (force e, received b)
      | _, _ => None
      end
  | Fail _ => None
  end.
(** A computation that, when it returns, leaves the store of anchors as it
    found it. *)
Definition keeps_anchors {A} (m : M K A) : Prop :=
  forall w r w', m w = Ok (r, w') -> anchors w' = anchors w.

(** The rest offset of the anchor stored at [this], if there is one. *)
Definition restOffset_at (w : World K) (this : addr) : option (btVector3 K) :=
  attachedRelativeOriginalPosition <$> anchors w !! this.

(** A history of calls on live anchors: [solve] in either build, and the two
    queries (their results are dropped). *)
Inductive AnchorCall : Type :=
  | Solve (SOLVE_VELOCITY : bool) (this : addr) (dt : K)
  | GetWorldPosition (this : addr)
  | GetRelativePosition (this : addr).

Definition run_call (c : AnchorCall) : M K unit :=
  match c with
  | Solve mode this dt => solve mode this dt
  | GetWorldPosition this => getWorldPosition this ;; mret tt
  | GetRelativePosition this => getRelativePosition this ;; mret tt
  end.

Fixpoint run_calls (cs : list AnchorCall) : M K unit :=
  match cs with
  | [] => mret tt
  | c :: cs' => run_call c ;; run_calls cs'
  end.

(** The world a computation leaves, or the one it started from if it fails. *)
Definition world_after {A} (m : M K A) (w : World K) : World K :=
  match m w with
  | Ok (_, w') => w'
  | Fail _ => w
  end.

(** A scene like [scene], with the body moving at [linVel] and turning at
    [angVel], and the node moving at [softVel]. *)
Definition moving_scene (invMass : K) (linVel angVel restOffset : btVector3 K)
    (softVel : btVector3 K) (sMass : K) : World K :=
  mkWorld {[ 1%N := mkBody (mkTransform mat_id vzero) invMass linVel angVel [] ]}
          {[ 2%N := mkElement vzero softVel sMass vzero true ]}
          {[ 7%N := mkAnchor (Some 1%N) (Some 2%N) (Some 3%N) restOffset ]}.

End Observations.

Arguments AnchorOp K : clear implicits.
Arguments AnchorCall K : clear implicits.

(** A body turned about the z axis (cosine 3/5, sine 4/5) at (1, 2, 3), and a
    free position element. *)
Definition turned_body : btRigidBody Qc :=
  mkBody (mkTransform (mkMat (mkVec (q 3 5) (q (-4) 5) 0%Qc)
                             (mkVec (q 4 5) (q 3 5) 0%Qc)
                             (mkVec 0%Qc 0%Qc 1%Qc))
                      (mkVec 1%Qc (q 2 1) (q 3 1)))
         1%Qc vzero vzero [].
Definition free_element : CordePositionElement Qc :=
  mkElement vzero vzero 1%Qc vzero false.
Definition turned_world : World Qc :=
  mkWorld {[ 1%N := turned_body ]} {[ 2%N := free_element ]} ∅.

(** The scenes of the examples below.  Position mode: the anchor is one unit
    along x from the node, the body weighs as much as the node (2), and the
    step is a hundredth of a second. *)
Definition equal_mass_scene : World Qc :=
  scene vzero (q 1 2) (mkVec 1%Qc 0%Qc 0%Qc) vzero (q 2 1) vzero.

(** The same disagreement against an immovable body, unit node mass. *)
Definition immovable_scene : World Qc :=
  scene vzero 0%Qc (mkVec 1%Qc 0%Qc 0%Qc) vzero 1%Qc vzero.

(** Velocity mode: the anchor point moves at (2, 0, 0) relative to the
    node. *)
Definition spinning_scene : World Qc :=
  moving_scene (q 1 2) (mkVec (q 3 1) 0%Qc 0%Qc) (mkVec 0%Qc 0%Qc 1%Qc)
               (mkVec 0%Qc 1%Qc 0%Qc) vzero (q 2 1).

(** [equal_mass_scene] in binary64. *)
Definition equal_mass_scene_f : World float :=
  scene vzero 0.5%float (mkVec 1%float 0%float 0%float) vzero 2%float vzero.

(** [immovable_scene] in binary64, and a nailed-down body in binary64 whose
    anchor point would be moving at (3, 0, 0). *)
Definition immovable_scene_f : World float :=
  scene vzero 0%float (mkVec 1%float 0%float 0%float) vzero 1%float vzero.
Definition immovable_moving_scene_f : World float :=
  moving_scene 0%float (mkVec 3%float 0%float 0%float) vzero
               (mkVec 0%float 1%float 0%float) vzero 2%float.

(** [v == btVector3(0, 0, 0)], component by component with the scalar type's
    own equality (in binary64 a negative zero equals zero). *)
Definition vec_is_zero `{Scalar K} (v : btVector3 K) : bool :=
  seqb (vx v) szero && seqb (vy v) szero && seqb (vz v) szero.

(** Two anchors built on the same node of [turned_world]. *)
Definition two_anchors : list (AnchorOp Qc) :=
  [ Construct 7%N (Some 1%N) (Some 2%N) (Some 3%N) (mkVec (q 5 1) 0%Qc (q 7 1));
    Construct 8%N (Some 1%N) (Some 2%N) (Some 4%N) (mkVec 0%Qc 1%Qc 0%Qc) ].

(** ** Further vocabulary for the anchor *)

Section MoreObservations.
Context `{Scalar K}.

(** A pointer that is not null and whose target is in the store. *)
Definition valid_in {A} (store : gmap addr A) (p : ptr) : Prop :=
  exists a x, p = Some a /\ store !! a = Some x.

(** Modelled from the spec: Bullet's [btRigidBody::setWorldTransform] is not
    part of the sources; the world transform the body exposes is replaced,
    which is how the simulation moves the body between two steps. *)
Definition setWorldTransform (p : ptr) (tr : btTransform K) : M K unit :=
  update_body p (fun b =>
    mkBody tr (m_inverseMass b) (m_linearVelocity b) (m_angularVelocity b) (received b)).

(** The body [b] moved: turned by [rot] about its centre of mass and shifted
    by [shift]. *)
Definition moved_transform (b : btRigidBody K) (rot : btMatrix3x3 K) (shift : btVector3 K)
    : btTransform K :=
  mkTransform (mat_mul rot (m_basis (m_worldTransform b)))
              (vadd (m_origin (m_worldTransform b)) shift).
End MoreObservations.

(** ** tgDataManager: the other methods *)

(** [tgDataManager::tgDataManager()]: three empty vectors. *)
Definition tgDataManager_ctor : tgDataManager := mkDataManager [] [] [].

(** [tgDataManager::addSensorInfo(pSensorInfo)]: how the call completes, and
    the manager afterwards. *)
Definition tgDataManager_addSensorInfo (pSensorInfo : ptr) (m : tgDataManager)
    : Completion * tgDataManager :=
  match pSensorInfo with
  | None =>
      (Throws (invalid_argument "pSensorInfo is NULL inside tgDataManager::addSensorInfo"), m)
  | Some _ =>
      let m' := mkDataManager (m_sensors m) (m_sensorInfos m ++ [pSensorInfo])
                              (m_senseables m) in
      if negb (invariant m') then (Aborts "invariant()", m')
      else match m_sensorInfos m' with
           | [] => (Aborts "!m_sensorInfos.empty()", m')
           | _ :: _ => (Returns, m')
           end
  end.

(** [tgDataManager::addSenseable(pSenseable)] *)
Definition tgDataManager_addSenseable (pSenseable : ptr) (m : tgDataManager)
    : Completion * tgDataManager :=
  match pSenseable with
  | None =>
      (Throws (invalid_argument "pSenseable is NULL inside tgDataManager::addSenseable"), m)
  | Some _ =>
      let m' := mkDataManager (m_sensors m) (m_sensorInfos m)
                              (m_senseables m ++ [pSenseable]) in
      if negb (invariant m') then (Aborts "invariant()", m')
      else match m_senseables m' with
           | [] => (Aborts "!m_senseables.empty()", m')
           | _ :: _ => (Returns, m')
           end
  end.

(** [std::ostream << size_t]: the decimal digits. *)
Definition string_of_size (n : nat) : string :=
  NilEmpty.string_of_uint (Nat.to_uint n).

(** The decimal digits, and the strings made of them. *)
Definition is_digit (c : Ascii.ascii) : bool :=
  let n := Ascii.nat_of_ascii c in (48 <=? n)%nat && (n <=? 57)%nat.

Fixpoint all_digits (s : string) : Prop :=
  match s with
  | EmptyString => True
  | String c s' => is_digit c = true /\ all_digits s'
  end.

(** [std::endl], as far as the characters go. *)
Definition endl : string := String (Ascii.ascii_of_nat 10) EmptyString.

(** [tgDataManager::toString()] *)
Definition tgDataManager_toString (m : tgDataManager) : string :=
  ("tgDataManager" ++ " with " ++ string_of_size (List.length (m_sensors m)) ++ " sensors, "
   ++ string_of_size (List.length (m_sensorInfos m)) ++ " sensorInfos, and "
   ++ string_of_size (List.length (m_senseables m)) ++ " senseable objects." ++ endl)%string.

(** [operator<<(std::ostream&, const tgDataManager&)], on the characters
    written so far. *)
Definition tgDataManager_print (os : string) (obj : tgDataManager) : string :=
  (os ++ tgDataManager_toString obj ++ endl)%string.

Section DataManager.
(** The sensors, sensor infos and senseables are objects of abstract classes
    declared outside the files at hand.  Their virtual methods, and what
    [new] and [delete] do to the free store, are parameters:
    [isThisMySenseable info senseable] and [getSenseableDescendants senseable]
    are const queries, [createSensor info senseable] returns a pointer to a
    new sensor, [delete_tgSensor] and [delete_tgSensorInfo] destroy one. *)
Variable Heap : Type.
Variable isThisMySenseable : addr -> ptr -> bool.
Variable createSensor : addr -> ptr -> Heap -> ptr * Heap.
Variable getSenseableDescendants : addr -> list ptr.
Variable delete_tgSensor : addr -> Heap -> Heap.
Variable delete_tgSensorInfo : addr -> Heap -> Heap.

(** A manager and the free store around it. *)
Definition DM : Type := tgDataManager * Heap.

(** [delete p]: nothing happens for a null pointer. *)
Definition delete_ptr (del : addr -> Heap -> Heap) (h : Heap) (p : ptr) : Heap :=
  match p with
  | Some a => del a h
  | None => h
  end.

(** The loop of [tgDataManager::addSensorsIfAppropriate(pSenseable)] over the
    sensor infos still to visit; [sensors] is [m_sensors] so far. *)
Fixpoint addSensors_loop (infos : list ptr) (pSenseable : ptr) (sensors : list ptr)
    (h : Heap) : Outcome (list ptr * Heap) :=
  match infos with
  | [] => Ok (sensors, h)
  | None :: _ => Fail InvalidPointer
  | Some info :: rest =>
      if isThisMySenseable info pSenseable then
        let '(s, h') := createSensor info pSenseable h in
        addSensors_loop rest pSenseable (sensors ++ [s]) h'
      else addSensors_loop rest pSenseable sensors h
  end.

(** [tgDataManager::addSensorsIfAppropriate(pSenseable)] *)
Definition tgDataManager_addSensorsIfAppropriate (pSenseable : ptr) (st : DM) : Outcome DM :=
  match addSensors_loop (m_sensorInfos (fst st)) pSenseable (m_sensors (fst st)) (snd st) with
  | Ok (sensors, h) =>
      Ok (mkDataManager sensors (m_sensorInfos (fst st)) (m_senseables (fst st)), h)
  | Fail f => Fail f
  end.

(** The inner loop of [setup], over the descendants still to visit. *)
Fixpoint setup_descendants (descendants : list ptr) (st : DM) : Outcome DM :=
  match descendants with
  | [] => Ok st
  | d :: rest =>
      match tgDataManager_addSensorsIfAppropriate d st with
      | Ok st' => setup_descendants rest st'
      | Fail f => Fail f
      end
  end.

(** The outer loop of [setup], over the senseables still to visit. *)
Fixpoint setup_loop (senseables : list ptr) (st : DM) : Outcome DM :=
  match senseables with
  | [] => Ok st
  | s :: rest =>
      match tgDataManager_addSensorsIfAppropriate s st with
      | Ok st1 =>
          match s with
          | Some a =>
              match setup_descendants (getSenseableDescendants a) st1 with
              | Ok st2 => setup_loop rest st2
              | Fail f => Fail f
              end
          | None => Fail InvalidPointer
          end
      | Fail f => Fail f
      end
  end.

(** [tgDataManager::setup()] *)
Definition tgDataManager_setup (st : DM) : Outcome DM :=
  match setup_loop (m_senseables (fst st)) st with
  | Ok st' => if invariant (fst st') then Ok st' else Fail (AssertionFailed "invariant()")
  | Fail f => Fail f
  end.

(** [tgDataManager::teardown()]: every sensor is deleted and its entry set to
    [NULL], then the vector is cleared. *)
Definition tgDataManager_teardown (st : DM) : Completion * DM :=
  let m := fst st in
  let h' := fold_left (delete_ptr delete_tgSensor) (m_sensors m) (snd st) in
  let nulled := map (fun _ : ptr => @None addr) (m_sensors m) in
  let cleared : list ptr := match nulled with _ => [] end in
  let m' := mkDataManager cleared (m_sensorInfos m) (m_senseables m) in
  if negb (invariant m') then (Aborts "invariant()", (m', h'))
  else match m_sensors m' with
       | [] => (Returns, (m', h'))
       | _ :: _ => (Aborts "m_sensors.empty()", (m', h'))
       end.

(** [tgDataManager::~tgDataManager()]: the sensors, then the sensor infos,
    are deleted and their entries set to [NULL]. *)
Definition tgDataManager_dtor (st : DM) : DM :=
  let m := fst st in
  let h1 := fold_left (delete_ptr delete_tgSensor) (m_sensors m) (snd st) in
  let h2 := fold_left (delete_ptr delete_tgSensorInfo) (m_sensorInfos m) h1 in
  (mkDataManager (map (fun _ : ptr => @None addr) (m_sensors m))
                 (map (fun _ : ptr => @None addr) (m_sensorInfos m))
                 (m_senseables m), h2).

(** The number of sensor infos that accept [x]. *)
Definition accepting (infos : list ptr) (x : ptr) : nat :=
  List.length (List.filter (fun i => match i with
                                     | Some info => isThisMySenseable info x
                                     | None => false
                                     end) infos).

(** The number of sensors [setup] is to create: one for every sensor info and
    every senseable or descendant of a senseable it accepts. *)
Definition sensors_due (infos senseables : list ptr) : nat :=
  sum_list (map (fun s =>
                   accepting infos s +
                   match s with
                   | Some a => sum_list (map (accepting infos) (getSenseableDescendants a))
                   | None => 0
                   end)%nat senseables).

(** [st'] is [st] with [n] sensors appended and nothing else changed in the
    manager. *)
Definition grown (n : nat) (st st' : DM) : Prop :=
  m_sensorInfos (fst st') = m_sensorInfos (fst st) /\
  m_senseables (fst st') = m_senseables (fst st) /\
  exists created,
    m_sensors (fst st') = m_sensors (fst st) ++ created /\ List.length created = n.

(** Every pointer kept in [m_sensorInfos] and [m_senseables] is non-null. *)
Definition no_null_entries (st : DM) : Prop :=
  Forall is_Some (m_sensorInfos (fst st)) /\ Forall is_Some (m_senseables (fst st)).

(** A call of the public interface on a live manager. *)
Inductive DMCall (K : Type) : Type :=
  | CallAddSensorInfo (p : ptr)
  | CallAddSenseable (p : ptr)
  | CallSetup
  | CallTeardown
  | CallStep (dt : K).

(** The manager after a call that returned or threw; a failure is a null
    dereference or a failed assertion ([Aborts]) of the method called. *)
Definition dm_call `{Scalar K} (c : DMCall K) (st : DM) : Outcome DM :=
  match c with
  | CallAddSensorInfo _ p =>
      match tgDataManager_addSensorInfo p (fst st) with
      | (Aborts cond, _) => Fail (AssertionFailed cond)
      | (_, m') => Ok (m', snd st)
      end
  | CallAddSenseable _ p =>
      match tgDataManager_addSenseable p (fst st) with
      | (Aborts cond, _) => Fail (AssertionFailed cond)
      | (_, m') => Ok (m', snd st)
      end
  | CallSetup _ => tgDataManager_setup st
  | CallTeardown _ =>
      match tgDataManager_teardown st with
      | (Aborts cond, _) => Fail (AssertionFailed cond)
      | (_, st') => Ok st'
      end
  | CallStep _ dt =>
      match tgDataManager_step dt (fst st) with
      | (Aborts cond, _) => Fail (AssertionFailed cond)
      | (_, m') => Ok (m', snd st)
      end
  end.

Fixpoint dm_calls `{Scalar K} (cs : list (DMCall K)) (st : DM) : Outcome DM :=
  match cs with
  | [] => Ok st
  | c :: rest =>
      match dm_call c st with
      | Ok st' => dm_calls rest st'
      | Fail f => Fail f
      end
  end.
End DataManager.

(** Stand-ins for the virtual methods, for the examples: the free store is a
    counter of the sensors created so far, a sensor info accepts the
    senseables of its own parity, senseable 10 has the descendants 11 and 12,
    and [delete] leaves the counter alone. *)
Definition demo_isThisMySenseable (info : addr) (s : ptr) : bool :=
  match s with
  | Some a => N.eqb (N.modulo a 2) (N.modulo info 2)
  | None => false
  end.
Definition demo_createSensor (info : addr) (s : ptr) (h : nat) : ptr * nat :=
  (Some (N.of_nat (100 + h)), Datatypes.S h).
Definition demo_getSenseableDescendants (a : addr) : list ptr :=
  if N.eqb a 10 then [Some 11%N; Some 12%N] else [].
Definition demo_delete (a : addr) (h : nat) : nat := h.

(** A manager with the sensor infos 1 and 2 and the senseables 10 and 21. *)
Definition demo_manager : tgDataManager :=
  mkDataManager [] [Some 1%N; Some 2%N] [Some 10%N; Some 21%N].

(** * Properties *)

(** ** Running the methods on a well-formed attachment *)

Ltac unfold_methods :=
  unfold solve, solve_position, solve_velocity, getWorldPosition, getRelativePosition,
    cordeAnchor_ctor, cordeAnchor_dtor, applyForce, set_isAnchor, activate,
    applyImpulse, call_body, update_body, update_element, set_body, set_element,
    set_anchor, assert_ptr, mbind, M_bind, bind, deref, mret, M_ret, ret, fail.

Section Execution.
Context `{Scalar K}.
Local Open Scope scalar_scope.

Lemma getWorldPosition_exec w this a pb b pe e :
  Attached w this a pb b pe e ->
  getWorldPosition this w = Ok (anchor_rbPos a b, w).
Proof.
  intros (Ha & Hpb & Hb & _ & _). unfold_methods.
  rewrite Ha, Hpb, Hb. reflexivity.
Qed.

Lemma getRelativePosition_exec w this a pb b pe e :
  Attached w this a pb b pe e ->
  getRelativePosition this w = Ok (anchor_relPos a b, w).
Proof.
  intros (Ha & Hpb & Hb & _ & _). unfold_methods.
  rewrite Ha, Hpb, Hb; cbn. rewrite Hb. reflexivity.
Qed.

(** The position-based [solve], run symbolically: the soft force is added to
    the node, then the body is activated and receives the impulse. *)
Lemma solve_position_exec w this a pb b pe e dt :
  Attached w this a pb b pe e ->
  let idt := sone /s dt in
  let posDiff := anchor_posDiff a b e in
  let rMass := solve_rMass (getInvMass b) in
  let massRatio := anchor_massRatio b e in
  let fSoft := sscale (spow idt 2 *s mass e) (vscale posDiff massRatio) in
  let fRigid := vadd (sscale (spow idt 1 *s rMass)
                             (vscale (vneg posDiff) (sone -s massRatio)))
                     (vscale (force (element_forced e fSoft)) dt) in
  solve false this dt w =
    Ok (tt, mkWorld
              (<[pb := body_after b [Activate; ApplyImpulse fRigid (anchor_relPos a b)]]>
                 (bodies w))
              (<[pe := element_forced e fSoft]> (elements w))
              (anchors w)).
Proof.
  intros (Ha & Hpb & Hb & Hpe & He); cbv zeta. unfold_methods.
  repeat (progress (cbn [anchors bodies elements];
                    rewrite ?Ha, ?Hpb, ?Hpe, ?Hb, ?He, ?lookup_insert_eq)).
  rewrite insert_insert_eq. unfold body_after; cbn [received m_worldTransform
    m_inverseMass m_linearVelocity m_angularVelocity].
  rewrite <- app_assoc. reflexivity.
Qed.

(** The velocity-based [solve], run symbolically. *)
Lemma solve_velocity_exec w this a pb b pe e dt :
  Attached w this a pb b pe e ->
  let idt := sone /s dt in
  let velDiff := anchor_velDiff a b e in
  let rMass := solve_rMass (getInvMass b) in
  let massRatio := anchor_massRatio b e in
  let fSoft := sscale (idt *s mass e) (vscale velDiff massRatio) in
  let fRigid := sscale rMass (vscale (vneg velDiff) (sone -s massRatio)) in
  solve true this dt w =
    Ok (tt, mkWorld
              (<[pb := body_after b [Activate; ApplyImpulse fRigid (anchor_relPos a b)]]>
                 (bodies w))
              (<[pe := element_forced e fSoft]> (elements w))
              (anchors w)).
Proof.
  intros (Ha & Hpb & Hb & Hpe & He); cbv zeta. unfold_methods.
  repeat (progress (cbn [anchors bodies elements];
                    rewrite ?Ha, ?Hpb, ?Hpe, ?Hb, ?He, ?lookup_insert_eq)).
  rewrite insert_insert_eq. unfold body_after; cbn [received m_worldTransform
    m_inverseMass m_linearVelocity m_angularVelocity].
  rewrite <- app_assoc. reflexivity.
Qed.

(** The constructor on valid pointers. *)
Lemma cordeAnchor_ctor_exec (w : World K) this pb b pe e pq worldPos :
  bodies w !! pb = Some b -> elements w !! pe = Some e ->
  cordeAnchor_ctor this (Some pb) (Some pe) (Some pq) worldPos w =
    Ok (tt, mkWorld
              (bodies w)
              (<[pe := element_flagged e true]> (elements w))
              (<[this := mkAnchor (Some pb) (Some pe) (Some pq)
                           (transform_apply (transform_inverse (m_worldTransform b)) worldPos)]>
                 (anchors w))).
Proof.
  intros Hb He. unfold_methods.
  repeat (progress (cbn [anchors bodies elements]; rewrite ?Hb, ?He)).
  reflexivity.
Qed.

(** The destructor of an anchor whose element pointer is valid. *)
Lemma cordeAnchor_dtor_exec (w : World K) this a pe e :
  anchors w !! this = Some a -> m_attachedElement a = Some pe ->
  elements w !! pe = Some e ->
  cordeAnchor_dtor this w =
    Ok (tt, mkWorld
              (bodies w)
              (<[pe := element_flagged e false]> (elements w))
              (<[this := mkAnchor None None (m_attachedQuaternion a)
                           (attachedRelativeOriginalPosition a)]> (anchors w))).
Proof.
  intros Ha Hpe He. unfold_methods.
  repeat (progress (cbn [anchors bodies elements]; rewrite ?Ha, ?Hpe, ?He)).
  reflexivity.
Qed.

Lemma run_ops_app (os1 os2 : list (AnchorOp K)) w w1 :
  run_ops os1 w = Ok (tt, w1) ->
  run_ops (os1 ++ os2) w = run_ops os2 w1.
Proof.
  revert w. induction os1 as [|o os1 IH]; intros w.
  - cbn. unfold mret, M_ret, ret. intros [= ->]. reflexivity.
  - cbn. unfold mbind, M_bind, bind.
    destruct (run_op o w) as [[[] w0]|f]; [|discriminate].
    apply IH.
Qed.
End Execution.

(** ** The anchors are left alone *)

Create HintDb frame discriminated.

Section Frame.
Context `{Scalar K}.

Lemma keeps_ret {A} (a : A) : keeps_anchors (K := K) (mret a).
Proof. intros w r w' [= _ <-]. reflexivity. Qed.

Lemma keeps_fail {A} f : keeps_anchors (K := K) (fail (A := A) f).
Proof. intros w r w' [=]. Qed.

Lemma keeps_bind {A B} (m : M K A) (k : A -> M K B) :
  keeps_anchors m -> (forall a, keeps_anchors (k a)) -> keeps_anchors (m ≫= k).
Proof.
  intros Hm Hk w r w'. unfold mbind, M_bind, bind.
  destruct (m w) as [[a w0]|f] eqn:E; [|discriminate].
  intros Hr. rewrite (Hk _ _ _ _ Hr). eapply Hm, E.
Qed.

Lemma keeps_deref {A} (store : World K -> gmap addr A) p : keeps_anchors (deref store p).
Proof.
  intros w r w'. unfold deref.
  destruct p as [a|]; [|discriminate].
  destruct (store w !! a); [|discriminate].
  intros [= _ <-]. reflexivity.
Qed.

Lemma keeps_assert_ptr cond p : keeps_anchors (assert_ptr (K := K) cond p).
Proof. destruct p; [apply (keeps_ret tt)|apply keeps_fail]. Qed.

Lemma keeps_update_element p f : keeps_anchors (update_element (K := K) p f).
Proof.
  apply keeps_bind; [apply keeps_deref|]. intros e.
  destruct p; [|apply keeps_fail]. intros w r w' [= _ <-]. reflexivity.
Qed.

Lemma keeps_update_body p f : keeps_anchors (update_body (K := K) p f).
Proof.
  apply keeps_bind; [apply keeps_deref|]. intros e.
  destruct p; [|apply keeps_fail]. intros w r w' [= _ <-]. reflexivity.
Qed.

#[local] Hint Resolve keeps_deref keeps_assert_ptr keeps_update_element keeps_update_body
  keeps_fail : frame.

Ltac frame :=
  repeat first
    [ solve [auto with frame]
    | apply keeps_ret
    | apply keeps_bind; [|intros ?]
    | progress cbv zeta ].

Lemma keeps_getWorldPosition this : keeps_anchors (getWorldPosition (K := K) this).
Proof. unfold getWorldPosition. frame. Qed.

Lemma keeps_getRelativePosition this : keeps_anchors (getRelativePosition (K := K) this).
Proof. unfold getRelativePosition. frame. Qed.

#[local] Hint Resolve keeps_getWorldPosition keeps_getRelativePosition : frame.

Lemma keeps_solve mode this dt : keeps_anchors (solve mode this dt).
Proof.
  unfold solve. frame. destruct mode.
  - unfold solve_velocity, applyForce, activate, applyImpulse, call_body. frame.
  - unfold solve_position, applyForce, activate, applyImpulse, call_body. frame.
Qed.

(** The two queries change nothing at all. *)
Lemma getWorldPosition_pure this (w : World K) r w' :
  getWorldPosition this w = Ok (r, w') -> w' = w.
Proof.
  unfold_methods.
  destruct (anchors w !! this) as [a|]; [|discriminate].
  destruct (attachedBody a) as [pb|]; [|discriminate].
  destruct (bodies w !! pb); [|discriminate].
  intros [= _ <-]. reflexivity.
Qed.

Lemma getRelativePosition_pure this (w : World K) r w' :
  getRelativePosition this w = Ok (r, w') -> w' = w.
Proof.
  unfold_methods.
  destruct (anchors w !! this) as [a|]; [|discriminate].
  destruct (attachedBody a) as [pb|]; [|discriminate].
  destruct (bodies w !! pb) eqn:E; [|discriminate]. cbn. rewrite E.
  intros [= _ <-]. reflexivity.
Qed.
End Frame.

(** ** Exact arithmetic *)

Local Open Scope Qc_scope.

Ltac qc_ops :=
  cbn [szero sone sadd ssub smul sdiv sopp sltb sleb seqb spow Qc_Scalar] in *.

Lemma vec_ext {K} (u v : btVector3 K) :
  vx u = vx v -> vy u = vy v -> vz u = vz v -> u = v.
Proof. destruct u, v; cbn; congruence. Qed.

(** Vector equalities over [Qc] are ring identities, component by
    component. *)
Ltac vec_ring :=
  apply vec_ext;
  unfold sscale, vadd, vsub, vneg, vscale, vzero; cbn [vx vy vz]; qc_ops;
  cbn [Qcpower]; ring.

Lemma Qc_ltb_lt (x y : Qc) : Qc_ltb x y = true <-> x < y.
Proof.
  unfold Qc_ltb. rewrite Qclt_alt.
  destruct (x ?= y); split; congruence.
Qed.

Lemma Qc_leb_le (x y : Qc) : Qc_leb x y = true <-> x <= y.
Proof.
  unfold Qc_leb. rewrite Qcle_alt.
  destruct (x ?= y); split; congruence.
Qed.

Lemma Qc_eq_bool_eq (x y : Qc) : Qc_eq_bool x y = true <-> x = y.
Proof.
  split; [apply Qc_eq_bool_correct|].
  intros ->. unfold Qc_eq_bool. destruct (Qc_eq_dec y y); congruence.
Qed.

Lemma Qcinv_pos (x : Qc) : 0 < x -> 0 < / x.
Proof.
  intros Hx. unfold Qclt in *.
  change (this (/ x)) with (Qred (/ this x)). rewrite Qred_correct.
  apply Qinv_lt_0_compat. exact Hx.
Qed.

Lemma solve_rMass_pos (invMass : Qc) :
  0 < invMass -> solve_rMass invMass = 1 / invMass /\ 0 < solve_rMass invMass.
Proof.
  intros Hpos. unfold solve_rMass; qc_ops.
  apply Qc_ltb_lt in Hpos as Hb. rewrite Hb. split; [reflexivity|].
  unfold Qcdiv. rewrite Qcmult_1_l. apply Qcinv_pos, Hpos.
Qed.

Lemma solve_massRatio_nonzero (rMass sMass : Qc) :
  rMass <> 0 -> solve_massRatio rMass sMass = rMass / (rMass + sMass).
Proof.
  intros Hne. unfold solve_massRatio; qc_ops.
  destruct (Qc_eq_bool rMass 0) eqn:E.
  - apply Qc_eq_bool_eq in E. contradiction.
  - unfold Qcdiv. ring.
Qed.

Lemma Qclt_ne (x : Qc) : 0 < x -> x <> 0.
Proof. intros Hx ->. exact (Qclt_not_eq _ _ Hx eq_refl). Qed.

(** Closed equalities between rationals, and between vectors of them, are
    decided on the canonical representatives. *)
Ltac qc_decide := apply Qc_is_canon; vm_compute; reflexivity.

Ltac vec_decide := apply vec_ext; cbn [vx vy vz]; qc_decide.

Lemma ApplyImpulse_eq {K} (i i' r r' : btVector3 K) :
  i = i' -> r = r' -> ApplyImpulse i r = ApplyImpulse i' r'.
Proof. intros -> ->. reflexivity. Qed.

Lemma Qc_one_neq_zero : (1 : Qc) <> 0.
Proof. intros E. apply (f_equal this) in E. discriminate E. Qed.

(** ** The mass ratio *)

(** The test [getInvMass() > 0.0] fails for an inverse mass of 0 and
    [rMass == 0] holds for [rMass = 0], in any scalar type that says so of its
    zero: then [rMass] is 0 and the ratio is 1. *)
Lemma solve_rMass_szero `{Scalar K} :
  sltb (szero : K) szero = false -> solve_rMass (szero : K) = szero.
Proof. intros Hlt. unfold solve_rMass. rewrite Hlt. reflexivity. Qed.

Lemma solve_massRatio_szero `{Scalar K} (sMass : K) :
  seqb (szero : K) szero = true -> solve_massRatio szero sMass = sone.
Proof. intros Heq. unfold solve_massRatio. rewrite Heq. reflexivity. Qed.



(** ** Position-based coupling *)

Lemma spow_1 (x : Qc) : spow x 1 = x.
Proof. cbn [spow]; qc_ops. ring. Qed.

(** The soft force of the code, in the form the specification writes it. *)
Lemma position_fSoft_form (dt sMass massRatio : Qc) (posDiff : btVector3 Qc) :
  sscale (spow (sone /s dt)%sc 2 *s sMass)%sc (vscale posDiff massRatio) =
  sscale ((1 / dt) ^ 2 * sMass * massRatio) posDiff.
Proof. vec_ring. Qed.

(** C3: with [dt > 0], the position-based [solve] adds to the node's force
    accumulator exactly [(1/dt)^2 * nodeMass * massRatio * posDiff], where
    [posDiff] is the anchor's world position (what [getWorldPosition] returns)
    minus the node's predicted position; for [posDiff = (1,0,0)],
    [nodeMass = 2], [massRatio = 1/2] and [dt = 1/100] the force added is
    (10000, 0, 0). *)
Theorem solve_position_soft_force (w : World Qc) this a pb b pe e (dt : Qc) :
  Attached w this a pb b pe e -> 0 < dt ->
  exists w' e',
    solve false this dt w = Ok (tt, w') /\
    elements w' !! pe = Some e' /\
    getWorldPosition this w = Ok (anchor_rbPos a b, w) /\
    anchor_posDiff a b e = vsub (anchor_rbPos a b) (pos_new e) /\
    force e' = vadd (force e)
                 (sscale ((1 / dt) ^ 2 * mass e * anchor_massRatio b e)
                         (anchor_posDiff a b e)) /\
    (anchor_posDiff a b e = mkVec 1 0 0 -> mass e = q 2 1 ->
     anchor_massRatio b e = q 1 2 -> dt = q 1 100 ->
     force e' = vadd (force e) (mkVec (q 10000 1) 0 0)).
Proof.
  intros Hatt Hdt.
  pose proof (solve_position_exec w this a pb b pe e dt Hatt) as Hrun.
  cbv zeta in Hrun.
  eexists _, _. split; [exact Hrun|].
  split; [cbn [elements]; apply lookup_insert_eq|].
  split; [eapply getWorldPosition_exec, Hatt|].
  split; [reflexivity|].
  unfold element_forced; cbn [force].
  rewrite position_fSoft_form. split; [reflexivity|].
  intros -> -> -> ->. apply (f_equal (vadd (force e))). vec_decide.
Qed.

(** The scenario of the specification, run on [equal_mass_scene]. *)
Lemma solve_position_soft_force_witness :
  exists w' e',
    solve false 7%N (q 1 100) equal_mass_scene = Ok (tt, w') /\
    elements w' !! 2%N = Some e' /\
    force e' = mkVec (q 10000 1) 0 0.
Proof.
  destruct (solve_position_soft_force equal_mass_scene 7%N
              (mkAnchor (Some 1%N) (Some 2%N) (Some 3%N) (mkVec 1 0 0))
              1%N (mkBody (mkTransform mat_id vzero) (q 1 2) vzero vzero [])
              2%N (mkElement vzero vzero (q 2 1) vzero true) (q 1 100))
    as (w' & e' & Hrun & He' & _ & _ & _ & Hforce).
  - repeat split.
  - reflexivity.
  - exists w', e'. split; [exact Hrun|]. split; [exact He'|].
    rewrite Hforce.
    + vec_decide.
    + vec_decide.
    + reflexivity.
    + qc_decide.
    + reflexivity.
Defined.

(** C4: with [dt > 0], the position-based [solve] activates the body and then
    applies to it, at the anchor's world position minus the body's current
    centre of mass, the impulse [(1/dt) * rMass * rRigid + F * dt], where
    [rRigid = -posDiff * (1 - massRatio)] and [F] is the node's accumulated
    force as [solve] leaves it (the soft force included). *)
Theorem solve_position_impulse (w : World Qc) this a pb b pe e (dt : Qc) :
  Attached w this a pb b pe e -> 0 < dt ->
  let rMass := solve_rMass (getInvMass b) in
  let rRigid := vscale (vneg (anchor_posDiff a b e)) (1 - anchor_massRatio b e) in
  exists w' b' e',
    solve false this dt w = Ok (tt, w') /\
    bodies w' !! pb = Some b' /\
    elements w' !! pe = Some e' /\
    getRelativePosition this w = Ok (anchor_relPos a b, w) /\
    anchor_relPos a b = vsub (anchor_rbPos a b) (getCenterOfMassPosition b) /\
    received b' =
      received b ++
      [Activate;
       ApplyImpulse (vadd (sscale (1 / dt * rMass) rRigid) (vscale (force e') dt))
                    (anchor_relPos a b)].
Proof.
  intros Hatt Hdt; cbv zeta.
  pose proof (solve_position_exec w this a pb b pe e dt Hatt) as Hrun.
  cbv zeta in Hrun.
  eexists _, _, _. split; [exact Hrun|].
  split; [cbn [bodies]; apply lookup_insert_eq|].
  split; [cbn [elements]; apply lookup_insert_eq|].
  split; [eapply getRelativePosition_exec, Hatt|].
  split; [reflexivity|].
  unfold body_after; cbn [received]. rewrite spow_1. reflexivity.
Qed.

(** On [equal_mass_scene] the two terms of the impulse cancel. *)
Lemma solve_position_impulse_witness :
  exists w' b',
    solve false 7%N (q 1 100) equal_mass_scene = Ok (tt, w') /\
    bodies w' !! 1%N = Some b' /\
    received b' = [Activate; ApplyImpulse vzero (mkVec 1 0 0)].
Proof.
  destruct (solve_position_impulse equal_mass_scene 7%N
              (mkAnchor (Some 1%N) (Some 2%N) (Some 3%N) (mkVec 1 0 0))
              1%N (mkBody (mkTransform mat_id vzero) (q 1 2) vzero vzero [])
              2%N (mkElement vzero vzero (q 2 1) vzero true) (q 1 100))
    as (w' & b' & e' & Hrun & Hb' & He' & _ & _ & Hcalls).
  - repeat split.
  - reflexivity.
  - exists w', b'. split; [exact Hrun|]. split; [exact Hb'|].
    rewrite Hcalls.
    vm_compute in Hrun. injection Hrun as <-.
    vm_compute in He'. injection He' as <-.
    cbn [received app]. apply (f_equal (fun c => [Activate; c])).
    apply ApplyImpulse_eq; vec_decide.
Defined.

(** C1, as the code has it: against an immovable body ([inverseMass = 0]),
    in either scalar type, [rMass] is 0 and the mass ratio is 1, and the
    impulse handed to [applyImpulse] is [(1/dt) * 0 * rRigid] plus the node's
    accumulated force (the soft force included) times [dt].  In exact
    arithmetic and with [dt > 0] the first part is the zero vector, the soft
    force is [(1/dt)^2 * nodeMass * posDiff], and the impulse is the node's
    accumulated force times [dt]. *)
Theorem solve_position_immovable :
  (forall (K : Type) (HK : Scalar K) (w : World K) this a pb b pe e (dt : K),
     Attached w this a pb b pe e -> getInvMass b = szero ->
     sltb (szero : K) szero = false -> seqb (szero : K) szero = true ->
     exists w' b' e',
       solve false this dt w = Ok (tt, w') /\
       bodies w' !! pb = Some b' /\
       elements w' !! pe = Some e' /\
       solve_rMass (getInvMass b) = szero /\
       anchor_massRatio b e = sone /\
       force e' = vadd (force e)
                    (sscale (spow (sone /s dt) 2 *s mass e)%sc
                            (vscale (anchor_posDiff a b e) sone)) /\
       received b' =
         received b ++
         [Activate;
          ApplyImpulse
            (vadd (sscale (spow (sone /s dt) 1 *s szero)%sc
                          (vscale (vneg (anchor_posDiff a b e)) (sone -s sone)%sc))
                  (vscale (force e') dt))
            (anchor_relPos a b)]) /\
  (forall (w : World Qc) this a pb b pe e (dt : Qc),
     Attached w this a pb b pe e -> getInvMass b = 0 -> 0 < dt ->
     exists w' b' e',
       solve false this dt w = Ok (tt, w') /\
       bodies w' !! pb = Some b' /\
       elements w' !! pe = Some e' /\
       anchor_massRatio b e = 1 /\
       sscale (1 / dt * solve_rMass (getInvMass b))
              (vscale (vneg (anchor_posDiff a b e)) (1 - anchor_massRatio b e)) = vzero /\
       force e' = vadd (force e) (sscale ((1 / dt) ^ 2 * mass e) (anchor_posDiff a b e)) /\
       received b' =
         received b ++ [Activate; ApplyImpulse (vscale (force e') dt) (anchor_relPos a b)]).
Proof.
  assert (Hgen : forall (K : Type) (HK : Scalar K) (w : World K) this a pb b pe e (dt : K),
     Attached w this a pb b pe e -> getInvMass b = szero ->
     sltb (szero : K) szero = false -> seqb (szero : K) szero = true ->
     exists w' b' e',
       solve false this dt w = Ok (tt, w') /\
       bodies w' !! pb = Some b' /\
       elements w' !! pe = Some e' /\
       solve_rMass (getInvMass b) = szero /\
       anchor_massRatio b e = sone /\
       force e' = vadd (force e)
                    (sscale (spow (sone /s dt) 2 *s mass e)%sc
                            (vscale (anchor_posDiff a b e) sone)) /\
       received b' =
         received b ++
         [Activate;
          ApplyImpulse
            (vadd (sscale (spow (sone /s dt) 1 *s szero)%sc
                          (vscale (vneg (anchor_posDiff a b e)) (sone -s sone)%sc))
                  (vscale (force e') dt))
            (anchor_relPos a b)]).
  { intros K HK w this a pb b pe e dt Hatt Hinv Hlt Heq.
    pose proof (solve_position_exec w this a pb b pe e dt Hatt) as Hrun.
    cbv zeta in Hrun.
    assert (Hr : solve_rMass (getInvMass b) = szero)
      by (rewrite Hinv; apply (solve_rMass_szero Hlt)).
    assert (Hratio : anchor_massRatio b e = sone).
    { unfold anchor_massRatio. rewrite Hr. apply (solve_massRatio_szero _ Heq). }
    rewrite Hratio, Hr in Hrun.
    eexists _, _, _. split; [exact Hrun|].
    split; [cbn [bodies]; apply lookup_insert_eq|].
    split; [cbn [elements]; apply lookup_insert_eq|].
    split; [exact Hr|]. split; [exact Hratio|].
    split; reflexivity. }
  split; [exact Hgen|].
  intros w this a pb b pe e dt Hatt Hinv Hdt.
  destruct (Hgen Qc Qc_Scalar w this a pb b pe e dt Hatt Hinv
              ltac:(reflexivity) ltac:(reflexivity))
    as (w' & b' & e' & Hrun & Hb' & He' & Hr & Hratio & Hforce & Hcalls).
  exists w', b', e'. split; [exact Hrun|]. split; [exact Hb'|]. split; [exact He'|].
  split; [exact Hratio|].
  rewrite Hratio, Hr.
  split; [vec_ring|].
  split.
  - rewrite Hforce. apply (f_equal (vadd (force e))). vec_ring.
  - rewrite Hcalls.
    apply (f_equal (fun c => received b ++ [Activate; c])).
    apply ApplyImpulse_eq; [|reflexivity]. vec_ring.
Qed.

(** On [immovable_scene] with a unit step the body is handed the impulse
    (1, 0, 0), in exact arithmetic and in binary64. *)
Lemma solve_position_immovable_witness :
  (exists w' b',
     solve false 7%N 1 immovable_scene = Ok (tt, w') /\
     bodies w' !! 1%N = Some b' /\
     received b' = [Activate; ApplyImpulse (mkVec 1 0 0) (mkVec 1 0 0)]) /\
  (exists w' b',
     solve false 7%N 1%float immovable_scene_f = Ok (tt, w') /\
     bodies w' !! 1%N = Some b' /\
     anchor_massRatio b' (mkElement vzero vzero 1%float vzero true) = 1%float /\
     received b' = [Activate; ApplyImpulse (mkVec 1%float 0%float 0%float)
                                           (mkVec 1%float 0%float 0%float)]).
Proof.
  split.
  - destruct (proj2 solve_position_immovable immovable_scene 7%N
                (mkAnchor (Some 1%N) (Some 2%N) (Some 3%N) (mkVec 1 0 0))
                1%N (mkBody (mkTransform mat_id vzero) 0 vzero vzero [])
                2%N (mkElement vzero vzero 1 vzero true) 1)
      as (w' & b' & e' & Hrun & Hb' & He' & _ & _ & Hforce & Hcalls).
    + repeat split.
    + reflexivity.
    + reflexivity.
    + exists w', b'. split; [exact Hrun|]. split; [exact Hb'|].
      rewrite Hcalls, Hforce.
      cbn [received app]. apply (f_equal (fun c => [Activate; c])).
      apply ApplyImpulse_eq; vec_decide.
  - destruct (proj1 solve_position_immovable float float_Scalar immovable_scene_f 7%N
                (mkAnchor (Some 1%N) (Some 2%N) (Some 3%N)
                   (mkVec 1%float 0%float 0%float))
                1%N (mkBody (mkTransform mat_id vzero) 0%float vzero vzero [])
                2%N (mkElement vzero vzero 1%float vzero true) 1%float)
      as (w' & b' & e' & Hrun & Hb' & He' & _ & _ & Hforce & Hcalls).
    + repeat split.
    + reflexivity.
    + reflexivity.
    + reflexivity.
    + exists w', b'. split; [exact Hrun|]. split; [exact Hb'|].
      vm_compute in Hrun. injection Hrun as <-.
      vm_compute in Hb'. injection Hb' as <-.
      split; vm_compute; reflexivity.
Defined.

(** C1, as stated, fails: [immovable_scene] has an immovable body, the step is
    positive, and the impulse handed to [applyImpulse] is (1, 0, 0), not the
    zero vector; the same happens in binary64 on [immovable_scene_f]. *)
Lemma immovable_body_impulse_not_zero :
  (getInvMass <$> bodies immovable_scene !! 1%N = Some 0 /\
   0 < 1 /\
   exists w' b' impulse rel_pos,
     solve false 7%N 1 immovable_scene = Ok (tt, w') /\
     bodies w' !! 1%N = Some b' /\
     received b' = [Activate; ApplyImpulse impulse rel_pos] /\
     impulse = mkVec 1 0 0 /\
     impulse <> vzero) /\
  (getInvMass <$> bodies immovable_scene_f !! 1%N = Some 0%float /\
   sltb 0%float 1%float = true /\
   observe (solve false 7%N 1%float immovable_scene_f) =
     Some (mkVec 1%float 0%float 0%float,
           [Activate; ApplyImpulse (mkVec 1%float 0%float 0%float)
                                   (mkVec 1%float 0%float 0%float)]) /\
   vec_is_zero (mkVec 1%float 0%float 0%float) = false).
Proof.
  split.
  - split; [reflexivity|]. split; [reflexivity|].
    pose proof (solve_position_exec immovable_scene 7%N _ 1%N _ 2%N _ 1
                  ltac:(repeat split)) as Hrun.
    cbv zeta in Hrun.
    eexists _, _, _, _. split; [exact Hrun|].
    split; [cbn [bodies]; apply lookup_insert_eq|].
    split; [reflexivity|].
    assert (Himp : forall v : btVector3 Qc,
               v = mkVec 1 0 0 -> v = mkVec 1 0 0 /\ v <> vzero).
    { intros v ->. split; [reflexivity|].
      intros E. apply (f_equal vx) in E. exact (Qc_one_neq_zero E). }
    apply Himp. vec_decide.
  - repeat split; vm_compute; reflexivity.
Qed.

(** ** The time step is not checked *)

(** C2, as the code has it: [solve] does not look at the sign of [dt].  On a
    well-formed attachment it returns normally also when [dt <= 0], in either
    build and for either scalar type, after the same computation as for a
    positive step: the node gains [pow(1/dt, 2) * sMass * rSoft] and the body
    is handed [pow(1/dt, 1) * rMass * rRigid + force * dt] (in the velocity
    build [(1/dt) * sMass * vSoft] and [rMass * vRigid]). *)
Theorem solve_nonpositive_dt_returns `{Scalar K} (mode : bool) (w : World K)
    this a pb b pe e (dt : K) :
  Attached w this a pb b pe e -> sleb dt szero = true ->
  let idt := (sone /s dt)%sc in
  let rMass := solve_rMass (getInvMass b) in
  let massRatio := anchor_massRatio b e in
  let posDiff := anchor_posDiff a b e in
  let velDiff := anchor_velDiff a b e in
  let fSoft :=
    if mode then sscale (idt *s mass e)%sc (vscale velDiff massRatio)
    else sscale (spow idt 2 *s mass e)%sc (vscale posDiff massRatio) in
  let fRigid :=
    if mode then sscale rMass (vscale (vneg velDiff) (sone -s massRatio)%sc)
    else vadd (sscale (spow idt 1 *s rMass)%sc
                      (vscale (vneg posDiff) (sone -s massRatio)%sc))
              (vscale (vadd (force e) fSoft) dt) in
  exists w',
    solve mode this dt w = Ok (tt, w') /\
    elements w' !! pe = Some (element_forced e fSoft) /\
    bodies w' !! pb =
      Some (body_after b [Activate; ApplyImpulse fRigid (anchor_relPos a b)]).
Proof.
  intros Hatt _; cbv zeta. destruct mode.
  - pose proof (solve_velocity_exec w this a pb b pe e dt Hatt) as Hrun.
    cbv zeta in Hrun. eexists. split; [exact Hrun|].
    split; [cbn [elements]|cbn [bodies]]; apply lookup_insert_eq.
  - pose proof (solve_position_exec w this a pb b pe e dt Hatt) as Hrun.
    cbv zeta in Hrun. eexists. split; [exact Hrun|].
    split; [cbn [elements]|cbn [bodies]]; apply lookup_insert_eq.
Qed.

(** A step of -1/2 on [equal_mass_scene_f], in binary64: [1/dt] is -2 and the
    node gains (4, 0, 0). *)
Lemma solve_nonpositive_dt_returns_witness :
  exists w' e',
    solve false 7%N (-0.5)%float equal_mass_scene_f = Ok (tt, w') /\
    elements w' !! 2%N = Some e' /\
    force e' = mkVec 4%float 0%float 0%float.
Proof.
  destruct (solve_nonpositive_dt_returns false equal_mass_scene_f 7%N
              (mkAnchor (Some 1%N) (Some 2%N) (Some 3%N) (mkVec 1%float 0%float 0%float))
              1%N (mkBody (mkTransform mat_id vzero) 0.5%float vzero vzero [])
              2%N (mkElement vzero vzero 2%float vzero true) (-0.5)%float)
    as (w' & Hrun & He' & _).
  - repeat split.
  - reflexivity.
  - eexists w', _. split; [exact Hrun|]. split; [exact He'|].
    vm_compute. reflexivity.
Defined.

(** C2, as stated, fails: in binary64 a step of 0 is not rejected; [solve]
    returns after adding a force with infinite and NaN components to the node
    and handing a NaN impulse to the body. *)
Lemma solve_zero_dt_not_rejected :
  sleb 0%float szero = true /\
  observe (solve false 7%N 0%float equal_mass_scene_f) =
    Some (mkVec infinity nan nan,
          [Activate; ApplyImpulse (mkVec nan nan nan) (mkVec 1%float 0%float 0%float)]).
Proof. split; vm_compute; reflexivity. Qed.

(** Whether [solve] fails does not depend on [dt] at all. *)
Lemma solve_failure_independent_of_dt `{Scalar K} (mode : bool) (w : World K)
    this (dt dt' : K) f :
  solve mode this dt w = Fail f -> solve mode this dt' w = Fail f.
Proof.
  unfold_methods. destruct mode;
    repeat (cbn [anchors bodies elements] in *; case_match; simplify_eq;
            rewrite ?lookup_insert_eq in *); try congruence.
Qed.

(** ** The rest offset *)

(** Bullet's inverse undoes a rigid transform. *)
Lemma transform_inverse_apply (t : btTransform Qc) (p : btVector3 Qc) :
  is_rotation (m_basis t) ->
  transform_apply t (transform_apply (transform_inverse t) p) = p.
Proof.
  destruct t as [[[a b c] [d e f] [g h i]] [ox oy oz]], p as [x y z].
  unfold is_rotation, mat_mul, mat_id, transpose, vdot; cbn [m_basis row0 row1 row2 vx vy vz].
  qc_ops. intros Hrot.
  pose proof (f_equal (fun m => vx (row0 m)) Hrot) as H00.
  pose proof (f_equal (fun m => vy (row0 m)) Hrot) as H01.
  pose proof (f_equal (fun m => vz (row0 m)) Hrot) as H02.
  pose proof (f_equal (fun m => vx (row1 m)) Hrot) as H10.
  pose proof (f_equal (fun m => vy (row1 m)) Hrot) as H11.
  pose proof (f_equal (fun m => vz (row1 m)) Hrot) as H12.
  pose proof (f_equal (fun m => vx (row2 m)) Hrot) as H20.
  pose proof (f_equal (fun m => vy (row2 m)) Hrot) as H21.
  pose proof (f_equal (fun m => vz (row2 m)) Hrot) as H22.
  cbn [row0 row1 row2 vx vy vz] in *. clear Hrot.
  apply vec_ext;
    unfold transform_apply, transform_inverse, mat_vec, transpose, vadd, vneg, vdot;
    cbn [m_basis m_origin row0 row1 row2 vx vy vz]; qc_ops.
  - transitivity ((a * a + b * b + c * c) * (x - ox) + (a * d + b * e + c * f) * (y - oy)
                  + (a * g + b * h + c * i) * (z - oz) + ox); [ring|].
    rewrite H00, H01, H02. ring.
  - transitivity ((d * a + e * b + f * c) * (x - ox) + (d * d + e * e + f * f) * (y - oy)
                  + (d * g + e * h + f * i) * (z - oz) + oy); [ring|].
    rewrite H10, H11, H12. ring.
  - transitivity ((g * a + h * b + i * c) * (x - ox) + (g * d + h * e + i * f) * (y - oy)
                  + (g * g + h * h + i * i) * (z - oz) + oz); [ring|].
    rewrite H20, H21, H22. ring.
Qed.

(** C6: after an anchor is constructed at the world point [p] on a body whose
    world transform is a rotation and a translation, and while the body has
    not moved, [getWorldPosition] returns [p]. *)
Theorem getWorldPosition_after_ctor (w : World Qc) this pb b pe e pq (p : btVector3 Qc) :
  bodies w !! pb = Some b -> elements w !! pe = Some e ->
  is_rotation (m_basis (getWorldTransform b)) ->
  exists w',
    cordeAnchor_ctor this (Some pb) (Some pe) (Some pq) p w = Ok (tt, w') /\
    restOffset_at w' this =
      Some (transform_apply (transform_inverse (getWorldTransform b)) p) /\
    bodies w' !! pb = Some b /\
    getWorldPosition this w' = Ok (p, w').
Proof.
  intros Hb He Hrot.
  pose proof (cordeAnchor_ctor_exec w this pb b pe e pq p Hb He) as Hrun.
  eexists. split; [exact Hrun|].
  split; [unfold restOffset_at; cbn [anchors]; rewrite lookup_insert_eq; reflexivity|].
  split; [exact Hb|].
  rewrite (getWorldPosition_exec _ this
             (mkAnchor (Some pb) (Some pe) (Some pq)
                (transform_apply (transform_inverse (getWorldTransform b)) p))
             pb b pe (element_flagged e true)).
  - unfold anchor_rbPos, getWorldTransform in *; cbn [attachedRelativeOriginalPosition].
    rewrite (transform_inverse_apply _ _ Hrot). reflexivity.
  - repeat split; cbn [anchors bodies elements attachedBody m_attachedElement].
    + apply lookup_insert_eq.
    + exact Hb.
    + apply lookup_insert_eq.
Qed.

(** The point (5, 0, 7) on the body of [turned_world], which is turned about
    the z axis and sits at (1, 2, 3). *)
Lemma getWorldPosition_after_ctor_witness :
  exists w',
    cordeAnchor_ctor 7%N (Some 1%N) (Some 2%N) (Some 3%N)
      (mkVec (q 5 1) 0 (q 7 1)) turned_world = Ok (tt, w') /\
    getWorldPosition 7%N w' = Ok (mkVec (q 5 1) 0 (q 7 1), w').
Proof.
  destruct (getWorldPosition_after_ctor turned_world 7%N 1%N turned_body 2%N
              free_element 3%N (mkVec (q 5 1) 0 (q 7 1)))
    as (w' & Hrun & _ & _ & Hpos).
  - reflexivity.
  - reflexivity.
  - unfold is_rotation, mat_mul, mat_id, transpose, vdot, turned_body;
      cbn [getWorldTransform m_worldTransform m_basis row0 row1 row2 vx vy vz].
    f_equal; vec_decide.
  - exists w'. split; [exact Hrun | exact Hpos].
Defined.

(** ** Velocity-based coupling *)

(** C7: the velocity-based [solve] takes the velocity disagreement (the body's
    velocity at the anchor point minus the node's predicted velocity), adds
    the force [(1/dt) * nodeMass * (velDiff * massRatio)] to the node, and
    hands the body the impulse [rMass * (-velDiff * (1 - massRatio))], in
    which the node's accumulated force does not occur.  This holds for every
    [dt] and for either scalar type. *)
Theorem solve_velocity_spec `{Scalar K} (w : World K) this a pb b pe e (dt : K) :
  Attached w this a pb b pe e ->
  let velDiff := vsub (getVelocityInLocalPoint b (anchor_relPos a b)) (vel_new e) in
  let massRatio := anchor_massRatio b e in
  let rMass := solve_rMass (getInvMass b) in
  exists w' b' e',
    solve true this dt w = Ok (tt, w') /\
    bodies w' !! pb = Some b' /\
    elements w' !! pe = Some e' /\
    force e' = vadd (force e)
                 (sscale (sone /s dt *s mass e)%sc (vscale velDiff massRatio)) /\
    received b' =
      received b ++
      [Activate;
       ApplyImpulse (sscale rMass (vscale (vneg velDiff) (sone -s massRatio)%sc))
                    (anchor_relPos a b)].
Proof.
  intros Hatt; cbv zeta.
  pose proof (solve_velocity_exec w this a pb b pe e dt Hatt) as Hrun.
  cbv zeta in Hrun.
  eexists _, _, _. split; [exact Hrun|].
  split; [cbn [bodies]; apply lookup_insert_eq|].
  split; [cbn [elements]; apply lookup_insert_eq|].
  split; reflexivity.
Qed.

(** On [spinning_scene] with a step of 1/100: the node gains (200, 0, 0), the
    body is handed (-2, 0, 0) at (0, 1, 0). *)
Lemma solve_velocity_spec_witness :
  exists w' b' e',
    solve true 7%N (q 1 100) spinning_scene = Ok (tt, w') /\
    bodies w' !! 1%N = Some b' /\
    elements w' !! 2%N = Some e' /\
    force e' = mkVec (q 200 1) 0 0 /\
    received b' = [Activate; ApplyImpulse (mkVec (q (-2) 1) 0 0) (mkVec 0 1 0)].
Proof.
  destruct (solve_velocity_spec spinning_scene 7%N
              (mkAnchor (Some 1%N) (Some 2%N) (Some 3%N) (mkVec 0 1 0))
              1%N (mkBody (mkTransform mat_id vzero) (q 1 2)
                          (mkVec (q 3 1) 0 0) (mkVec 0 0 1) [])
              2%N (mkElement vzero vzero (q 2 1) vzero true) (q 1 100))
    as (w' & b' & e' & Hrun & Hb' & He' & Hforce & Hcalls).
  - repeat split.
  - exists w', b', e'. split; [exact Hrun|]. split; [exact Hb'|]. split; [exact He'|].
    rewrite Hforce, Hcalls. split.
    + vec_decide.
    + cbn [received app]. apply (f_equal (fun c => [Activate; c])).
      apply ApplyImpulse_eq; vec_decide.
Defined.

(** ** The is-anchor flag *)

(** C8: a constructor call that returns leaves the node's is-anchor flag
    true; a destructor call leaves it false, whatever constructor and
    destructor calls came before it on that node. *)
Theorem isAnchor_ctor_dtor `{Scalar K} (w : World K) :
  (forall this pb b pe e pq p,
     bodies w !! pb = Some b -> elements w !! pe = Some e ->
     exists w' e',
       cordeAnchor_ctor this (Some pb) (Some pe) (Some pq) p w = Ok (tt, w') /\
       elements w' !! pe = Some e' /\ isAnchor e' = true) /\
  (forall (history : list (AnchorOp K)) w1 this a pe e,
     run_ops history w = Ok (tt, w1) ->
     anchors w1 !! this = Some a -> m_attachedElement a = Some pe ->
     elements w1 !! pe = Some e ->
     exists w2 e2,
       run_ops (history ++ [Destroy this]) w = Ok (tt, w2) /\
       elements w2 !! pe = Some e2 /\ isAnchor e2 = false).
Proof.
  split.
  - intros this pb b pe e pq p Hb He.
    eexists _, _. split; [apply (cordeAnchor_ctor_exec w this pb b pe e pq p Hb He)|].
    split; [cbn [elements]; apply lookup_insert_eq|reflexivity].
  - intros history w1 this a pe e Hrun Ha Hpe He.
    rewrite (run_ops_app _ [Destroy this] _ _ Hrun).
    cbn [run_ops run_op]. unfold mbind at 1, M_bind at 1, bind at 1.
    rewrite (cordeAnchor_dtor_exec w1 this a pe e Ha Hpe He).
    eexists _, _. split; [reflexivity|].
    split; [cbn [elements]; apply lookup_insert_eq|reflexivity].
Qed.

(** Two anchors are built on node 2 of [turned_world] and the first one is
    destroyed: the flag is false although the second anchor still holds the
    node. *)
Lemma isAnchor_ctor_dtor_witness :
  exists w2 e2 a8,
    run_ops (two_anchors ++ [Destroy 7%N]) turned_world = Ok (tt, w2) /\
    elements w2 !! 2%N = Some e2 /\ isAnchor e2 = false /\
    anchors w2 !! 8%N = Some a8 /\ m_attachedElement a8 = Some 2%N.
Proof.
  pose (w1 := world_after (run_ops two_anchors) turned_world).
  assert (Hrun1 : run_ops two_anchors turned_world = Ok (tt, w1))
    by (vm_compute; reflexivity).
  destruct (proj2 (isAnchor_ctor_dtor turned_world) two_anchors w1 7%N
              (mkAnchor (Some 1%N) (Some 2%N) (Some 3%N)
                 (transform_apply (transform_inverse (getWorldTransform turned_body))
                    (mkVec (q 5 1) 0 (q 7 1))))
              2%N (element_flagged free_element true) Hrun1)
    as (w2 & e2 & Hrun & He2 & Hflag).
  - vm_compute; reflexivity.
  - reflexivity.
  - vm_compute; reflexivity.
  - exists w2, e2.
    rewrite (run_ops_app _ [Destroy 7%N] _ _ Hrun1) in Hrun.
    vm_compute in Hrun. injection Hrun as <-.
    eexists. split; [vm_compute; reflexivity|].
    split; [exact He2|]. split; [exact Hflag|].
    split; vm_compute; reflexivity.
Defined.

(** ** The rest offset is fixed *)

Lemma keeps_run_call `{Scalar K} (c : AnchorCall K) : keeps_anchors (run_call c).
Proof.
  destruct c as [mode this dt|this|this]; cbn [run_call].
  - apply keeps_solve.
  - apply keeps_bind; [apply keeps_getWorldPosition|intros _; apply keeps_ret].
  - apply keeps_bind; [apply keeps_getRelativePosition|intros _; apply keeps_ret].
Qed.

Lemma keeps_run_calls `{Scalar K} (cs : list (AnchorCall K)) : keeps_anchors (run_calls cs).
Proof.
  induction cs as [|c cs IH]; cbn [run_calls].
  - apply keeps_ret.
  - apply keeps_bind; [apply keeps_run_call|intros _; exact IH].
Qed.

(** C9: the constructor stores the rest offset, the world point taken through
    the inverse of the body's world transform; [solve] (in either build),
    [getWorldPosition] and [getRelativePosition] leave the rest offset of
    every anchor as it was, and so does any sequence of such calls. *)
Theorem restOffset_fixed `{Scalar K} (w w' : World K) (this : addr) :
  (forall pb b pe e pq p,
     bodies w !! pb = Some b -> elements w !! pe = Some e ->
     cordeAnchor_ctor this (Some pb) (Some pe) (Some pq) p w = Ok (tt, w') ->
     restOffset_at w' this =
       Some (transform_apply (transform_inverse (getWorldTransform b)) p)) /\
  (forall mode dt other,
     solve mode this dt w = Ok (tt, w') ->
     restOffset_at w' other = restOffset_at w other) /\
  (forall r other,
     getWorldPosition this w = Ok (r, w') ->
     w' = w /\ restOffset_at w' other = restOffset_at w other) /\
  (forall r other,
     getRelativePosition this w = Ok (r, w') ->
     w' = w /\ restOffset_at w' other = restOffset_at w other) /\
  (forall calls other,
     run_calls calls w = Ok (tt, w') ->
     restOffset_at w' other = restOffset_at w other).
Proof.
  split; [|split; [|split; [|split]]].
  - intros pb b pe e pq p Hb He Hrun.
    rewrite (cordeAnchor_ctor_exec w this pb b pe e pq p Hb He) in Hrun.
    injection Hrun as <-.
    unfold restOffset_at; cbn [anchors]. rewrite lookup_insert_eq. reflexivity.
  - intros mode dt other Hrun. unfold restOffset_at.
    rewrite (keeps_solve mode this dt _ _ _ Hrun). reflexivity.
  - intros r other Hrun.
    rewrite (getWorldPosition_pure _ _ _ _ Hrun). split; reflexivity.
  - intros r other Hrun.
    rewrite (getRelativePosition_pure _ _ _ _ Hrun). split; reflexivity.
  - intros calls other Hrun. unfold restOffset_at.
    rewrite (keeps_run_calls calls _ _ _ Hrun). reflexivity.
Qed.

(** On [equal_mass_scene]: two position steps with the queries in between
    leave the rest offset (1, 0, 0) in place. *)
Lemma restOffset_fixed_witness :
  exists w',
    run_calls [Solve false 7%N (q 1 100); GetWorldPosition 7%N;
               GetRelativePosition 7%N; Solve false 7%N (q 1 100)]
      equal_mass_scene = Ok (tt, w') /\
    restOffset_at w' 7%N = Some (mkVec 1 0 0).
Proof.
  pose (calls := [Solve false 7%N (q 1 100); GetWorldPosition 7%N;
                  GetRelativePosition 7%N; Solve false 7%N (q 1 100)]).
  pose (w' := world_after (run_calls calls) equal_mass_scene).
  assert (Hrun : run_calls calls equal_mass_scene = Ok (tt, w'))
    by (vm_compute; reflexivity).
  exists w'. split; [exact Hrun|].
  rewrite (proj2 (proj2 (proj2 (proj2 (restOffset_fixed equal_mass_scene w' 7%N))))
             calls 7%N Hrun).
  reflexivity.
Defined.

(** ** tgDataManager::step *)

(** C10: [tgDataManager::step(dt)] throws [std::invalid_argument] exactly when
    [dt <= 0]; otherwise it returns; in both cases the sensors, sensor infos
    and senseables are as before. *)
Theorem tgDataManager_step_spec (dt : Qc) (m : tgDataManager) :
  ((exists what, fst (tgDataManager_step dt m) = Throws (invalid_argument what))
     <-> dt <= 0) /\
  (fst (tgDataManager_step dt m) = Returns <-> 0 < dt) /\
  snd (tgDataManager_step dt m) = m /\
  m_sensors (snd (tgDataManager_step dt m)) = m_sensors m /\
  m_sensorInfos (snd (tgDataManager_step dt m)) = m_sensorInfos m /\
  m_senseables (snd (tgDataManager_step dt m)) = m_senseables m.
Proof.
  unfold tgDataManager_step, invariant; qc_ops.
  destruct (Qc_leb dt 0) eqn:E; cbn [fst snd].
  - apply Qc_leb_le in E.
    repeat split; try reflexivity; try discriminate.
    + intros _; exact E.
    + intros _. eexists; reflexivity.
    + intros Hlt. exfalso. exact (Qcle_not_lt _ _ E Hlt).
  - assert (Hlt : 0 < dt).
    { apply Qcnot_le_lt. intros Hle. apply Qc_leb_le in Hle. congruence. }
    repeat split; try reflexivity; try discriminate.
    + intros [what Hw]. discriminate Hw.
    + intros Hle. exfalso. exact (Qcle_not_lt _ _ Hle Hlt).
    + intros _; exact Hlt.
Qed.

(** ** Binary64 replays *)

(** The scenario of C3 in double precision: 1 / 0.01 rounds to 100 and the
    force added is exactly (10000, 0, 0); the two terms of the impulse
    cancel. *)
Example solve_position_binary64 :
  observe (solve false 7%N 0x1.47ae147ae147bp-7%float equal_mass_scene_f) =
    Some (mkVec 10000%float 0%float 0%float,
          [Activate; ApplyImpulse (mkVec 0%float 0%float 0%float)
                                  (mkVec 1%float 0%float 0%float)]).
Proof. vm_compute. reflexivity. Qed.

(** Equal masses give a ratio of exactly one half, an immovable body a ratio
    of exactly one. *)
Example solve_massRatio_binary64 :
  solve_massRatio (solve_rMass 0.5%float) 2%float = 0.5%float /\
  solve_massRatio (solve_rMass 0%float) 2%float = 1%float.
Proof. split; vm_compute; reflexivity. Qed.

(** [step] in double precision: zero and negative steps throw, a positive
    step returns, and so does NaN, which is not [<= 0]. *)
Example tgDataManager_step_binary64 :
  let m := mkDataManager [Some 1%N] [Some 2%N] [] in
  tgDataManager_step 0%float m = (Throws (invalid_argument "dt is not positive"), m) /\
  tgDataManager_step (-1)%float m = (Throws (invalid_argument "dt is not positive"), m) /\
  tgDataManager_step 0.5%float m = (Returns, m) /\
  tgDataManager_step nan m = (Returns, m).
Proof. cbv zeta. repeat split; vm_compute; reflexivity. Qed.

(** * Further properties of the anchor *)

(** ** Construction and destruction *)

Lemma valid_in_dec {A} (s : gmap addr A) (p : ptr) : valid_in s p \/ ~ valid_in s p.
Proof.
  destruct p as [a|]; [destruct (s !! a) as [x|] eqn:E|].
  - left. exists a, x. split; [reflexivity|exact E].
  - right. intros (a' & x & [= <-] & E'). congruence.
  - right. intros (a & x & E & _). discriminate E.
Qed.

Lemma cordeAnchor_ctor_bad_body `{Scalar K} (w : World K) this body element qElement p :
  ~ valid_in (bodies w) body ->
  cordeAnchor_ctor this body element qElement p w = Fail InvalidPointer.
Proof.
  intros Hb. unfold_methods.
  destruct body as [pb|]; [|reflexivity].
  destruct (bodies w !! pb) as [b|] eqn:Eb; [|reflexivity].
  exfalso. apply Hb. exists pb, b. split; [reflexivity|exact Eb].
Qed.

Lemma cordeAnchor_ctor_bad_element `{Scalar K} (w : World K) this body element qElement p :
  valid_in (bodies w) body -> ~ valid_in (elements w) element ->
  cordeAnchor_ctor this body element qElement p w = Fail InvalidPointer.
Proof.
  intros (pb & b & -> & Eb) He. unfold_methods. rewrite Eb; cbn [anchors bodies elements].
  destruct element as [pe|]; [|reflexivity].
  destruct (elements w !! pe) as [e|] eqn:Ee; [|reflexivity].
  exfalso. apply He. exists pe, e. split; [reflexivity|exact Ee].
Qed.

Lemma cordeAnchor_ctor_null_qElement `{Scalar K} (w : World K) this body element p :
  valid_in (bodies w) body -> valid_in (elements w) element ->
  cordeAnchor_ctor this body element None p w = Fail (AssertionFailed "qElement").
Proof.
  intros (pb & b & -> & Eb) (pe & e & -> & Ee). unfold_methods.
  rewrite Eb; cbn [anchors bodies elements]. rewrite Ee. reflexivity.
Qed.

(** X1: the constructor returns exactly when [body] and [element] point to
    live objects and [qElement] is not null.  A null (or dangling) [body] or
    [element] is dereferenced before any assertion is reached, so of the
    three assertions only [assert(qElement)] can fail. *)
Theorem cordeAnchor_ctor_outcome `{Scalar K} (w : World K) this body element qElement p :
  ((exists w', cordeAnchor_ctor this body element qElement p w = Ok (tt, w')) <->
     valid_in (bodies w) body /\ valid_in (elements w) element /\ qElement <> None) /\
  (cordeAnchor_ctor this body element qElement p w = Fail InvalidPointer <->
     ~ valid_in (bodies w) body \/ ~ valid_in (elements w) element) /\
  (forall cond,
     cordeAnchor_ctor this body element qElement p w = Fail (AssertionFailed cond) <->
     cond = "qElement"%string /\ qElement = None /\
     valid_in (bodies w) body /\ valid_in (elements w) element).
Proof.
  destruct (valid_in_dec (bodies w) body) as [Hb|Hb].
  - destruct (valid_in_dec (elements w) element) as [He|He].
    + destruct qElement as [pq|].
      * destruct Hb as (pb & b & -> & Eb), He as (pe & e & -> & Ee).
        rewrite (cordeAnchor_ctor_exec w this pb b pe e pq p Eb Ee).
        assert (Hb : valid_in (bodies w) (Some pb)) by (exists pb, b; auto).
        assert (He : valid_in (elements w) (Some pe)) by (exists pe, e; auto).
        split; [split|split; [split|intros cond; split]].
        -- intros _. repeat split; [assumption|assumption|discriminate].
        -- intros _. eexists. reflexivity.
        -- discriminate.
        -- intros [Hn|Hn]; contradiction.
        -- discriminate.
        -- intros (_ & E & _). discriminate E.
      * rewrite (cordeAnchor_ctor_null_qElement w this body element p Hb He).
        split; [split|split; [split|intros cond; split]].
        -- intros [w' E]. discriminate E.
        -- intros (_ & _ & E). congruence.
        -- discriminate.
        -- intros [Hn|Hn]; contradiction.
        -- intros [= <-]. repeat split; assumption.
        -- intros (-> & _). reflexivity.
    + rewrite (cordeAnchor_ctor_bad_element w this body element qElement p Hb He).
      split; [split|split; [split|intros cond; split]].
      * intros [w' E]. discriminate E.
      * intros (_ & He' & _). contradiction.
      * intros _. right. exact He.
      * reflexivity.
      * discriminate.
      * intros (_ & _ & _ & He'). contradiction.
  - rewrite (cordeAnchor_ctor_bad_body w this body element qElement p Hb).
    split; [split|split; [split|intros cond; split]].
    + intros [w' E]. discriminate E.
    + intros (Hb' & _). contradiction.
    + intros _. left. exact Hb.
    + reflexivity.
    + discriminate.
    + intros (_ & _ & Hb' & _). contradiction.
Qed.

(** ** What [solve] leaves alone *)

(** X4: on a well-formed attachment [solve] (in either build) returns and
    does two things only: it adds to the force accumulator of the attached
    node, and it calls [activate] and then [applyImpulse], at the relative
    anchor position, on the attached body.  It writes nothing else: the
    anchors, every other body and element, and the node's predicted position
    and velocity, mass and is-anchor flag are as before. *)
Theorem solve_frame `{Scalar K} (mode : bool) (w : World K) this a pb b pe e (dt : K) :
  Attached w this a pb b pe e ->
  exists w' b' e' impulse,
    solve mode this dt w = Ok (tt, w') /\
    anchors w' = anchors w /\
    (forall k, k <> pb -> bodies w' !! k = bodies w !! k) /\
    (forall k, k <> pe -> elements w' !! k = elements w !! k) /\
    bodies w' !! pb = Some b' /\
    received b' = received b ++ [Activate; ApplyImpulse impulse (anchor_relPos a b)] /\
    elements w' !! pe = Some e' /\
    pos_new e' = pos_new e /\ vel_new e' = vel_new e /\
    mass e' = mass e /\ isAnchor e' = isAnchor e.
Proof.
  intros Hatt.
  assert (Hrun : exists i f,
            solve mode this dt w =
              Ok (tt, mkWorld
                        (<[pb := body_after b [Activate; ApplyImpulse i (anchor_relPos a b)]]>
                           (bodies w))
                        (<[pe := element_forced e f]> (elements w)) (anchors w))).
  { destruct mode.
    - eexists _, _. apply (solve_velocity_exec w this a pb b pe e dt Hatt).
    - eexists _, _. apply (solve_position_exec w this a pb b pe e dt Hatt). }
  destruct Hrun as (i & f & Hrun).
  eexists _, _, _, i. split; [exact Hrun|]. cbn [anchors bodies elements].
  split; [reflexivity|].
  split; [intros k Hk; apply lookup_insert_ne; congruence|].
  split; [intros k Hk; apply lookup_insert_ne; congruence|].
  split; [apply lookup_insert_eq|].
  split; [reflexivity|].
  split; [apply lookup_insert_eq|].
  repeat split; reflexivity.
Qed.

(** A step on [equal_mass_scene] leaves the node where it was predicted. *)
Lemma solve_frame_witness :
  exists w' e',
    solve false 7%N (q 1 100) equal_mass_scene = Ok (tt, w') /\
    elements w' !! 2%N = Some e' /\ pos_new e' = vzero /\ isAnchor e' = true.
Proof.
  destruct (solve_frame false equal_mass_scene 7%N
              (mkAnchor (Some 1%N) (Some 2%N) (Some 3%N) (mkVec 1 0 0))
              1%N (mkBody (mkTransform mat_id vzero) (q 1 2) vzero vzero [])
              2%N (mkElement vzero vzero (q 2 1) vzero true) (q 1 100))
    as (w' & b' & e' & i & Hrun & _ & _ & _ & _ & _ & He' & Hpos & _ & _ & Hflag).
  - repeat split.
  - exists w', e'. repeat split; assumption.
Defined.

(** ** When [solve] fails *)

Lemma solve_no_anchor `{Scalar K} mode (w : World K) this dt :
  anchors w !! this = None -> solve mode this dt w = Fail InvalidPointer.
Proof. intros Ha. unfold_methods. rewrite Ha. reflexivity. Qed.

Lemma solve_null_body `{Scalar K} mode (w : World K) this a dt :
  anchors w !! this = Some a -> attachedBody a = None ->
  solve mode this dt w = Fail (AssertionFailed "attachedBody").
Proof. intros Ha Hb. unfold_methods. rewrite Ha; cbn. rewrite Hb. reflexivity. Qed.

Lemma solve_null_element `{Scalar K} mode (w : World K) this a pb dt :
  anchors w !! this = Some a -> attachedBody a = Some pb -> m_attachedElement a = None ->
  solve mode this dt w = Fail (AssertionFailed "m_attachedElement").
Proof.
  intros Ha Hb He. unfold_methods. rewrite Ha; cbn. rewrite Hb, He. reflexivity.
Qed.

Lemma solve_dangling `{Scalar K} mode (w : World K) this a pb pe dt :
  anchors w !! this = Some a -> attachedBody a = Some pb -> m_attachedElement a = Some pe ->
  bodies w !! pb = None \/ elements w !! pe = None ->
  solve mode this dt w = Fail InvalidPointer.
Proof.
  intros Ha Hb He Hd. unfold_methods. rewrite Ha; cbn. rewrite Hb, He.
  destruct (bodies w !! pb) as [b|] eqn:Eb.
  - destruct Hd as [Hd|Hd]; [discriminate Hd|].
    destruct mode; cbn; rewrite ?Ha; cbn; rewrite ?Hb, ?Eb; cbn;
      rewrite ?Eb, ?Hd; cbn; rewrite ?Hb, ?He, ?Eb, ?Hd; reflexivity.
  - destruct mode; cbn; rewrite ?Ha; cbn; rewrite ?Hb, ?Eb; reflexivity.
Qed.

Lemma solve_returns `{Scalar K} mode (w : World K) this a pb b pe e dt :
  Attached w this a pb b pe e -> exists w', solve mode this dt w = Ok (tt, w').
Proof.
  intros Hatt. destruct mode.
  - eexists. apply (solve_velocity_exec w this a pb b pe e dt Hatt).
  - eexists. apply (solve_position_exec w this a pb b pe e dt Hatt).
Qed.

(** X3: [solve] returns exactly on a well-formed attachment, whatever [dt]
    and the build are.  It is stopped by an assertion exactly when the
    anchor's body pointer, or else its element pointer, is null, and it
    dereferences an invalid pointer exactly when the anchor itself is missing
    or when both pointers are non-null and one of them dangles. *)
Theorem solve_outcome `{Scalar K} (mode : bool) (w : World K) (this : addr) (dt : K) :
  ((exists w', solve mode this dt w = Ok (tt, w')) <->
     exists a pb b pe e, Attached w this a pb b pe e) /\
  (forall cond,
     solve mode this dt w = Fail (AssertionFailed cond) <->
     exists a, anchors w !! this = Some a /\
       ((attachedBody a = None /\ cond = "attachedBody"%string) \/
        (attachedBody a <> None /\ m_attachedElement a = None /\
         cond = "m_attachedElement"%string))) /\
  (solve mode this dt w = Fail InvalidPointer <->
     anchors w !! this = None \/
     exists a pb pe,
       anchors w !! this = Some a /\ attachedBody a = Some pb /\
       m_attachedElement a = Some pe /\
       (bodies w !! pb = None \/ elements w !! pe = None)).
Proof.
  destruct (anchors w !! this) as [a|] eqn:Ha;
    [destruct (attachedBody a) as [pb|] eqn:Hb;
       [destruct (m_attachedElement a) as [pe|] eqn:He;
          [destruct (bodies w !! pb) as [b|] eqn:Eb;
             [destruct (elements w !! pe) as [e|] eqn:Ee|]|]|]|].
  - assert (Hatt : Attached w this a pb b pe e) by (repeat split; assumption).
    destruct (solve_returns mode w this a pb b pe e dt Hatt) as (w' & ->).
    split; [split|split; [intros cond; split|split]].
    + intros _. eauto 10.
    + intros _. eauto.
    + discriminate.
    + intros (a' & [= <-] & [[E _]|(_ & E & _)]); congruence.
    + discriminate.
    + intros [E|(a' & pb' & pe' & [= <-] & Eb' & Ee' & [E|E])]; congruence.
  - rewrite (solve_dangling mode w this a pb pe dt Ha Hb He (or_intror Ee)).
    split; [split|split; [intros cond; split|split]].
    + intros [w' E]. discriminate E.
    + intros (a' & pb' & b' & pe' & e' & Ha' & Hb' & _ & He' & Ee'). congruence.
    + discriminate.
    + intros (a' & [= <-] & [[E _]|(_ & E & _)]); congruence.
    + intros _. right. exists a, pb, pe. auto.
    + reflexivity.
  - rewrite (solve_dangling mode w this a pb pe dt Ha Hb He (or_introl Eb)).
    split; [split|split; [intros cond; split|split]].
    + intros [w' E]. discriminate E.
    + intros (a' & pb' & b' & pe' & e' & Ha' & Hb' & Eb' & _). congruence.
    + discriminate.
    + intros (a' & [= <-] & [[E _]|(_ & E & _)]); congruence.
    + intros _. right. exists a, pb, pe. auto.
    + reflexivity.
  - rewrite (solve_null_element mode w this a pb dt Ha Hb He).
    split; [split|split; [intros cond; split|split]].
    + intros [w' E]. discriminate E.
    + intros (a' & pb' & b' & pe' & e' & Ha' & _ & _ & He' & _). congruence.
    + intros [= <-]. exists a. split; [reflexivity|]. right. split; [congruence|auto].
    + intros (a' & [= <-] & [[E _]|(_ & _ & ->)]); [congruence|reflexivity].
    + discriminate.
    + intros [E|(a' & pb' & pe' & [= <-] & _ & E & _)]; congruence.
  - rewrite (solve_null_body mode w this a dt Ha Hb).
    split; [split|split; [intros cond; split|split]].
    + intros [w' E]. discriminate E.
    + intros (a' & pb' & b' & pe' & e' & Ha' & Hb' & _). congruence.
    + intros [= <-]. exists a. split; [reflexivity|]. left. auto.
    + intros (a' & [= <-] & [[_ ->]|(E & _)]); [reflexivity|congruence].
    + discriminate.
    + intros [E|(a' & pb' & pe' & [= <-] & E & _)]; congruence.
  - rewrite (solve_no_anchor mode w this dt Ha).
    split; [split|split; [intros cond; split|split]].
    + intros [w' E]. discriminate E.
    + intros (a' & pb' & b' & pe' & e' & Ha' & _). congruence.
    + discriminate.
    + intros (a' & E & _). discriminate E.
    + intros _. left. reflexivity.
    + reflexivity.
Qed.

(** ** The split of the disagreement *)



(** ** What reaches the rigid body *)

Ltac vec_field :=
  apply vec_ext;
  unfold sscale, vadd, vsub, vneg, vscale, vzero; cbn [vx vy vz]; qc_ops;
  cbn [Qcpower]; field.

(** X6: in the position-based build, against a body and a node of positive
    mass and with [dt > 0], the mass-weighted correction and the soft force
    carried over from the node cancel: the impulse handed to the body is the
    force the node had accumulated before the call, times [dt], whatever the
    positional disagreement is. *)
Theorem solve_position_impulse_cancels (w : World Qc) this a pb b pe e (dt : Qc) :
  Attached w this a pb b pe e ->
  0 < getInvMass b -> 0 < mass e -> 0 < dt ->
  exists w' b',
    solve false this dt w = Ok (tt, w') /\
    bodies w' !! pb = Some b' /\
    received b' =
      received b ++ [Activate; ApplyImpulse (vscale (force e) dt) (anchor_relPos a b)].
Proof.
  intros Hatt Hinv Hs Hdt.
  pose proof (solve_position_exec w this a pb b pe e dt Hatt) as Hrun.
  cbv zeta in Hrun.
  eexists _, _. split; [exact Hrun|].
  split; [cbn [bodies]; apply lookup_insert_eq|].
  unfold body_after; cbn [received].
  apply (f_equal (fun c => received b ++ [Activate; c])).
  apply ApplyImpulse_eq; [|reflexivity].
  destruct (solve_rMass_pos _ Hinv) as [_ Hr].
  unfold anchor_massRatio, element_forced; cbn [force].
  set (r := solve_rMass (getInvMass b)) in *.
  rewrite (solve_massRatio_nonzero r (mass e) (Qclt_ne r Hr)).
  assert (Hsum : r + mass e <> 0) by (apply Qclt_ne, Qcplus_pos_pos; assumption).
  apply Qclt_ne in Hdt.
  vec_field; split; assumption.
Qed.

(** On a scene with a node that already carries the force (0, 3, 0) and is
    one unit away from the anchor, the body is handed (0, 3/100, 0). *)
Lemma solve_position_impulse_cancels_witness :
  exists w' b',
    solve false 7%N (q 1 100)
      (scene vzero (q 1 2) (mkVec 1 0 0) vzero (q 2 1) (mkVec 0 (q 3 1) 0)) = Ok (tt, w') /\
    bodies w' !! 1%N = Some b' /\
    received b' = [Activate; ApplyImpulse (mkVec 0 (q 3 100) 0) (mkVec 1 0 0)].
Proof.
  destruct (solve_position_impulse_cancels
              (scene vzero (q 1 2) (mkVec 1 0 0) vzero (q 2 1) (mkVec 0 (q 3 1) 0)) 7%N
              (mkAnchor (Some 1%N) (Some 2%N) (Some 3%N) (mkVec 1 0 0))
              1%N (mkBody (mkTransform mat_id vzero) (q 1 2) vzero vzero [])
              2%N (mkElement vzero vzero (q 2 1) (mkVec 0 (q 3 1) 0) true) (q 1 100))
    as (w' & b' & Hrun & Hb' & Hcalls).
  - repeat split.
  - reflexivity.
  - reflexivity.
  - reflexivity.
  - exists w', b'. split; [exact Hrun|]. split; [exact Hb'|].
    rewrite Hcalls. cbn [received app]. apply (f_equal (fun c => [Activate; c])).
    apply ApplyImpulse_eq; vec_decide.
Defined.

(** X7: in the velocity-based build, against a body of inverse mass 0 and in
    either scalar type, [rMass] is 0 and the mass ratio is 1: the body is
    handed [0 * (-velDiff * (1 - 1))] and the node takes the whole velocity
    disagreement.  In exact arithmetic that impulse is the zero vector. *)
Theorem solve_velocity_immovable :
  (forall (K : Type) (HK : Scalar K) (w : World K) this a pb b pe e (dt : K),
     Attached w this a pb b pe e -> getInvMass b = szero ->
     sltb (szero : K) szero = false -> seqb (szero : K) szero = true ->
     exists w' b' e',
       solve true this dt w = Ok (tt, w') /\
       bodies w' !! pb = Some b' /\
       elements w' !! pe = Some e' /\
       solve_rMass (getInvMass b) = szero /\
       anchor_massRatio b e = sone /\
       received b' =
         received b ++
         [Activate;
          ApplyImpulse (sscale szero (vscale (vneg (anchor_velDiff a b e)) (sone -s sone)%sc))
                       (anchor_relPos a b)] /\
       force e' = vadd (force e)
                    (sscale (sone /s dt *s mass e)%sc (vscale (anchor_velDiff a b e) sone))) /\
  (forall (w : World Qc) this a pb b pe e (dt : Qc),
     Attached w this a pb b pe e -> getInvMass b = 0 ->
     exists w' b' e',
       solve true this dt w = Ok (tt, w') /\
       bodies w' !! pb = Some b' /\
       elements w' !! pe = Some e' /\
       received b' = received b ++ [Activate; ApplyImpulse vzero (anchor_relPos a b)] /\
       force e' = vadd (force e) (sscale (1 / dt * mass e) (anchor_velDiff a b e))).
Proof.
  assert (Hgen : forall (K : Type) (HK : Scalar K) (w : World K) this a pb b pe e (dt : K),
     Attached w this a pb b pe e -> getInvMass b = szero ->
     sltb (szero : K) szero = false -> seqb (szero : K) szero = true ->
     exists w' b' e',
       solve true this dt w = Ok (tt, w') /\
       bodies w' !! pb = Some b' /\
       elements w' !! pe = Some e' /\
       solve_rMass (getInvMass b) = szero /\
       anchor_massRatio b e = sone /\
       received b' =
         received b ++
         [Activate;
          ApplyImpulse (sscale szero (vscale (vneg (anchor_velDiff a b e)) (sone -s sone)%sc))
                       (anchor_relPos a b)] /\
       force e' = vadd (force e)
                    (sscale (sone /s dt *s mass e)%sc (vscale (anchor_velDiff a b e) sone))).
  { intros K HK w this a pb b pe e dt Hatt Hinv Hlt Heq.
    pose proof (solve_velocity_exec w this a pb b pe e dt Hatt) as Hrun.
    cbv zeta in Hrun.
    assert (Hr : solve_rMass (getInvMass b) = szero)
      by (rewrite Hinv; apply (solve_rMass_szero Hlt)).
    assert (Hratio : anchor_massRatio b e = sone).
    { unfold anchor_massRatio. rewrite Hr. apply (solve_massRatio_szero _ Heq). }
    rewrite Hratio, Hr in Hrun.
    eexists _, _, _. split; [exact Hrun|].
    split; [cbn [bodies]; apply lookup_insert_eq|].
    split; [cbn [elements]; apply lookup_insert_eq|].
    split; [exact Hr|]. split; [exact Hratio|].
    split; reflexivity. }
  split; [exact Hgen|].
  intros w this a pb b pe e dt Hatt Hinv.
  destruct (Hgen Qc Qc_Scalar w this a pb b pe e dt Hatt Hinv
              ltac:(reflexivity) ltac:(reflexivity))
    as (w' & b' & e' & Hrun & Hb' & He' & _ & _ & Hcalls & Hforce).
  exists w', b', e'. split; [exact Hrun|]. split; [exact Hb'|]. split; [exact He'|].
  split.
  - rewrite Hcalls.
    apply (f_equal (fun c => received b ++ [Activate; c])).
    apply ApplyImpulse_eq; [|reflexivity]. vec_ring.
  - rewrite Hforce. apply (f_equal (vadd (force e))). vec_ring.
Qed.

(** A nailed-down body whose anchor point would be moving at (3, 0, 0): the
    impulse is zero, in exact arithmetic and (up to the sign of zero) in
    binary64. *)
Lemma solve_velocity_immovable_witness :
  (exists w' b',
     solve true 7%N (q 1 100)
       (moving_scene 0 (mkVec (q 3 1) 0 0) vzero (mkVec 0 1 0) vzero (q 2 1)) = Ok (tt, w') /\
     bodies w' !! 1%N = Some b' /\
     received b' = [Activate; ApplyImpulse vzero (mkVec 0 1 0)]) /\
  (exists w' b' impulse rel_pos,
     solve true 7%N 0.5%float immovable_moving_scene_f = Ok (tt, w') /\
     bodies w' !! 1%N = Some b' /\
     received b' = [Activate; ApplyImpulse impulse rel_pos] /\
     vec_is_zero impulse = true).
Proof.
  split.
  - destruct (proj2 solve_velocity_immovable
                (moving_scene 0 (mkVec (q 3 1) 0 0) vzero (mkVec 0 1 0) vzero (q 2 1)) 7%N
                (mkAnchor (Some 1%N) (Some 2%N) (Some 3%N) (mkVec 0 1 0))
                1%N (mkBody (mkTransform mat_id vzero) 0 (mkVec (q 3 1) 0 0) vzero [])
                2%N (mkElement vzero vzero (q 2 1) vzero true) (q 1 100))
      as (w' & b' & e' & Hrun & Hb' & _ & Hcalls & _).
    + repeat split.
    + reflexivity.
    + exists w', b'. split; [exact Hrun|]. split; [exact Hb'|].
      rewrite Hcalls. cbn [received app]. apply (f_equal (fun c => [Activate; c])).
      apply ApplyImpulse_eq; vec_decide.
  - destruct (proj1 solve_velocity_immovable float float_Scalar
                immovable_moving_scene_f 7%N
                (mkAnchor (Some 1%N) (Some 2%N) (Some 3%N) (mkVec 0%float 1%float 0%float))
                1%N (mkBody (mkTransform mat_id vzero) 0%float
                            (mkVec 3%float 0%float 0%float) vzero [])
                2%N (mkElement vzero vzero 2%float vzero true) 0.5%float)
      as (w' & b' & e' & Hrun & Hb' & _ & _ & _ & Hcalls & _).
    + repeat split.
    + reflexivity.
    + reflexivity.
    + reflexivity.
    + exists w', b'. eexists _, _. split; [exact Hrun|]. split; [exact Hb'|].
      split; [exact Hcalls|]. vm_compute. reflexivity.
Defined.

(** ** The anchor follows the body *)

Lemma setWorldTransform_exec `{Scalar K} (w : World K) pb b tr :
  bodies w !! pb = Some b ->
  setWorldTransform (Some pb) tr w =
    Ok (tt, mkWorld (<[pb := mkBody tr (m_inverseMass b) (m_linearVelocity b)
                               (m_angularVelocity b) (received b)]> (bodies w))
                    (elements w) (anchors w)).
Proof.
  intros Hb. unfold setWorldTransform. unfold_methods. rewrite Hb. reflexivity.
Qed.

Lemma mat_mul_vec (m n : btMatrix3x3 Qc) (v : btVector3 Qc) :
  mat_vec (mat_mul m n) v = mat_vec m (mat_vec n v).
Proof.
  destruct m as [[a b c] [d e f] [g h i]], n as [[a' b' c'] [d' e' f'] [g' h' i']],
    v as [x y z].
  unfold mat_vec, mat_mul, transpose, vdot; cbn [row0 row1 row2 vx vy vz]; qc_ops.
  f_equal; ring.
Qed.

Lemma transform_apply_mat_vec (t : btTransform Qc) (v : btVector3 Qc) :
  transform_apply t v = vadd (mat_vec (m_basis t) v) (m_origin t).
Proof.
  unfold transform_apply, mat_vec, vadd, vdot; cbn [vx vy vz]; qc_ops.
  f_equal; ring.
Qed.

(** X8: the anchor is fixed in the body.  When the body is turned by [rot]
    about its centre of mass and shifted by [shift], the anchor's world
    position, [p] before, becomes [rot * (p - c) + c + shift] ([c] the centre
    of mass before), and its relative position is the old one turned by
    [rot]; the shift does not enter it. *)
Theorem getWorldPosition_follows_body (w : World Qc) this a pb b pe e
    (rot : btMatrix3x3 Qc) (shift p rel : btVector3 Qc) :
  Attached w this a pb b pe e ->
  getWorldPosition this w = Ok (p, w) ->
  getRelativePosition this w = Ok (rel, w) ->
  exists w',
    setWorldTransform (Some pb) (moved_transform b rot shift) w = Ok (tt, w') /\
    getWorldPosition this w' =
      Ok (vadd (vadd (mat_vec rot (vsub p (getCenterOfMassPosition b)))
                     (getCenterOfMassPosition b)) shift, w') /\
    getRelativePosition this w' = Ok (mat_vec rot rel, w').
Proof.
  intros Hatt Hp Hrel.
  rewrite (getWorldPosition_exec w this a pb b pe e Hatt) in Hp. injection Hp as <-.
  rewrite (getRelativePosition_exec w this a pb b pe e Hatt) in Hrel. injection Hrel as <-.
  destruct Hatt as (Ha & Hpb & Hb & Hpe & He).
  eexists. split; [apply (setWorldTransform_exec w pb b _ Hb)|].
  set (b' := mkBody (moved_transform b rot shift) (m_inverseMass b) (m_linearVelocity b)
                    (m_angularVelocity b) (received b)).
  set (w' := mkWorld _ _ _).
  assert (Hatt' : Attached w' this a pb b' pe e).
  { repeat split; try assumption. apply lookup_insert_eq. }
  rewrite (getWorldPosition_exec w' this a pb b' pe e Hatt').
  rewrite (getRelativePosition_exec w' this a pb b' pe e Hatt').
  unfold anchor_relPos, anchor_rbPos, getCenterOfMassPosition, b', moved_transform;
    cbn [m_worldTransform].
  rewrite !transform_apply_mat_vec; cbn [m_basis m_origin].
  rewrite mat_mul_vec.
  set (v := mat_vec (m_basis (m_worldTransform b)) (attachedRelativeOriginalPosition a)).
  set (o := m_origin (m_worldTransform b)).
  replace (vsub (vadd v o) o) with v by vec_ring.
  split; f_equal; f_equal; vec_ring.
Qed.

(** The body of [equal_mass_scene] makes a quarter turn about z and moves by
    (1, 1, 1): the anchor goes from (1, 0, 0) to (1, 2, 1). *)
Lemma getWorldPosition_follows_body_witness :
  exists w',
    setWorldTransform (Some 1%N)
      (moved_transform (mkBody (mkTransform mat_id vzero) (q 1 2) vzero vzero [])
         (mkMat (mkVec 0 (- (1)) 0) (mkVec 1 0 0) (mkVec 0 0 1)) (mkVec 1 1 1))
      equal_mass_scene = Ok (tt, w') /\
    exists p, getWorldPosition 7%N w' = Ok (p, w') /\ p = mkVec 1 (q 2 1) 1.
Proof.
  destruct (getWorldPosition_follows_body equal_mass_scene 7%N
              (mkAnchor (Some 1%N) (Some 2%N) (Some 3%N) (mkVec 1 0 0))
              1%N (mkBody (mkTransform mat_id vzero) (q 1 2) vzero vzero [])
              2%N (mkElement vzero vzero (q 2 1) vzero true)
              (mkMat (mkVec 0 (- (1)) 0) (mkVec 1 0 0) (mkVec 0 0 1)) (mkVec 1 1 1)
              (anchor_rbPos (mkAnchor (Some 1%N) (Some 2%N) (Some 3%N) (mkVec 1 0 0))
                 (mkBody (mkTransform mat_id vzero) (q 1 2) vzero vzero []))
              (anchor_relPos (mkAnchor (Some 1%N) (Some 2%N) (Some 3%N) (mkVec 1 0 0))
                 (mkBody (mkTransform mat_id vzero) (q 1 2) vzero vzero [])))
    as (w' & Hset & Hpos & _).
  - repeat split.
  - apply (getWorldPosition_exec equal_mass_scene 7%N _ 1%N _ 2%N
             (mkElement vzero vzero (q 2 1) vzero true)). repeat split.
  - apply (getRelativePosition_exec equal_mass_scene 7%N _ 1%N _ 2%N
             (mkElement vzero vzero (q 2 1) vzero true)). repeat split.
  - exists w'. split; [exact Hset|].
    eexists. split; [exact Hpos|]. vec_decide.
Defined.

(** ** Repeated steps *)

Lemma Attached_after_solve `{Scalar K} (w : World K) this a pb b pe e cs f :
  Attached w this a pb b pe e ->
  Attached (mkWorld (<[pb := body_after b cs]> (bodies w))
                    (<[pe := element_forced e f]> (elements w)) (anchors w))
           this a pb (body_after b cs) pe (element_forced e f).
Proof.
  intros (Ha & Hpb & Hb & Hpe & He).
  repeat split; cbn [anchors bodies elements]; try assumption; apply lookup_insert_eq.
Qed.

(** X9: [solve] is not idempotent.  It does not move the node or the body, so
    a second position-based step with the same [dt] meets the same
    disagreement and adds the same force again: after two steps the node
    carries twice the force of one, and the body has been activated and
    handed an impulse twice. *)
Theorem solve_position_twice (w : World Qc) this a pb b pe e (dt : Qc) :
  Attached w this a pb b pe e -> 0 < dt ->
  exists w2 b2 e2 i1 i2,
    run_calls [Solve false this dt; Solve false this dt] w = Ok (tt, w2) /\
    elements w2 !! pe = Some e2 /\
    force e2 = vadd (force e)
                 (sscale ((1 + 1) * ((1 / dt) ^ 2 * mass e * anchor_massRatio b e))
                         (anchor_posDiff a b e)) /\
    bodies w2 !! pb = Some b2 /\
    received b2 =
      received b ++ [Activate; ApplyImpulse i1 (anchor_relPos a b);
                     Activate; ApplyImpulse i2 (anchor_relPos a b)].
Proof.
  intros Hatt Hdt.
  pose proof (solve_position_exec w this a pb b pe e dt Hatt) as Hrun1.
  cbv zeta in Hrun1.
  match type of Hrun1 with
  | context [body_after b ?cs] =>
      match type of Hrun1 with
      | context [<[pe := element_forced e ?f]> (elements w)] =>
          pose proof (Attached_after_solve w this a pb b pe e cs f Hatt) as Hatt1
      end
  end.
  pose proof (solve_position_exec _ this a pb _ pe _ dt Hatt1) as Hrun2.
  cbv zeta in Hrun2. cbn [bodies elements anchors] in Hrun2.
  eexists _, _, _, _, _. split.
  { cbn [run_calls run_call]. unfold mbind at 1, M_bind at 1, bind at 1.
    rewrite Hrun1. unfold mbind at 1, M_bind at 1, bind at 1.
    rewrite Hrun2. reflexivity. }
  cbn [bodies elements anchors].
  split; [apply lookup_insert_eq|].
  split.
  { unfold element_forced, anchor_posDiff, anchor_rbPos, anchor_massRatio, body_after,
      getInvMass; cbn [force pos_new mass m_worldTransform m_inverseMass].
    vec_ring. }
  split; [apply lookup_insert_eq|].
  unfold body_after; cbn [received]. rewrite <- !app_assoc. reflexivity.
Qed.

(** Two steps on [equal_mass_scene]: the node carries (20000, 0, 0). *)
Lemma solve_position_twice_witness :
  exists w2 e2,
    run_calls [Solve false 7%N (q 1 100); Solve false 7%N (q 1 100)] equal_mass_scene
      = Ok (tt, w2) /\
    elements w2 !! 2%N = Some e2 /\
    force e2 = mkVec (q 20000 1) 0 0.
Proof.
  destruct (solve_position_twice equal_mass_scene 7%N
              (mkAnchor (Some 1%N) (Some 2%N) (Some 3%N) (mkVec 1 0 0))
              1%N (mkBody (mkTransform mat_id vzero) (q 1 2) vzero vzero [])
              2%N (mkElement vzero vzero (q 2 1) vzero true) (q 1 100))
    as (w2 & b2 & e2 & i1 & i2 & Hrun & He2 & Hforce & _).
  - repeat split.
  - reflexivity.
  - exists w2, e2. split; [exact Hrun|]. split; [exact He2|].
    rewrite Hforce. vec_decide.
Defined.

(** * Properties of tgDataManager *)

(** ** Adding sensor infos and senseables *)

Lemma match_snoc {A B} (l : list A) (x : A) (u v : B) :
  match l ++ [x] with [] => u | _ :: _ => v end = v.
Proof. destruct l; reflexivity. Qed.

Lemma tgDataManager_addSensorInfo_some (a : addr) (m : tgDataManager) :
  tgDataManager_addSensorInfo (Some a) m =
    (Returns, mkDataManager (m_sensors m) (m_sensorInfos m ++ [Some a]) (m_senseables m)).
Proof.
  unfold tgDataManager_addSensorInfo, invariant; cbv zeta; cbn [negb m_sensorInfos].
  apply match_snoc.
Qed.

Lemma tgDataManager_addSenseable_some (a : addr) (m : tgDataManager) :
  tgDataManager_addSenseable (Some a) m =
    (Returns, mkDataManager (m_sensors m) (m_sensorInfos m) (m_senseables m ++ [Some a])).
Proof.
  unfold tgDataManager_addSenseable, invariant; cbv zeta; cbn [negb m_senseables].
  apply match_snoc.
Qed.

(** X10: [addSensorInfo] and [addSenseable] throw [std::invalid_argument]
    exactly for a null pointer and then leave the manager as it was;
    otherwise they return (neither postcondition assertion can fail) with the
    pointer appended to their own list and the two other lists untouched. *)
Theorem tgDataManager_add_spec (p : ptr) (m : tgDataManager) :
  (((exists what, fst (tgDataManager_addSensorInfo p m) = Throws (invalid_argument what))
      <-> p = None) /\
   (p = None -> snd (tgDataManager_addSensorInfo p m) = m) /\
   (p <> None ->
      tgDataManager_addSensorInfo p m =
        (Returns, mkDataManager (m_sensors m) (m_sensorInfos m ++ [p]) (m_senseables m)))) /\
  (((exists what, fst (tgDataManager_addSenseable p m) = Throws (invalid_argument what))
      <-> p = None) /\
   (p = None -> snd (tgDataManager_addSenseable p m) = m) /\
   (p <> None ->
      tgDataManager_addSenseable p m =
        (Returns, mkDataManager (m_sensors m) (m_sensorInfos m) (m_senseables m ++ [p])))).
Proof.
  destruct p as [a|].
  - rewrite tgDataManager_addSensorInfo_some, tgDataManager_addSenseable_some.
    split; (split; [split|split]).
    + intros [what E]. discriminate E.
    + discriminate.
    + discriminate.
    + reflexivity.
    + intros [what E]. discriminate E.
    + discriminate.
    + discriminate.
    + reflexivity.
  - split; (split; [split|split]).
    + reflexivity.
    + intros _. eexists. reflexivity.
    + reflexivity.
    + intros E. contradiction.
    + reflexivity.
    + intros _. eexists. reflexivity.
    + reflexivity.
    + intros E. contradiction.
Qed.

Section DataManagerFacts.
Variable Heap : Type.
Variable isThisMySenseable : addr -> ptr -> bool.
Variable createSensor : addr -> ptr -> Heap -> ptr * Heap.
Variable getSenseableDescendants : addr -> list ptr.
Variable delete_tgSensor : addr -> Heap -> Heap.
Variable delete_tgSensorInfo : addr -> Heap -> Heap.

#[local] Abbreviation addSensors := (tgDataManager_addSensorsIfAppropriate Heap isThisMySenseable createSensor).
#[local] Abbreviation setup := (tgDataManager_setup Heap isThisMySenseable createSensor getSenseableDescendants).
#[local] Abbreviation teardown := (tgDataManager_teardown Heap delete_tgSensor).
#[local] Abbreviation dtor := (tgDataManager_dtor Heap delete_tgSensor delete_tgSensorInfo).
#[local] Abbreviation due := (sensors_due isThisMySenseable getSenseableDescendants).

Lemma grown_trans n1 n2 st1 st2 st3 :
  grown Heap n1 st1 st2 -> grown Heap n2 st2 st3 -> grown Heap (n1 + n2) st1 st3.
Proof.
  intros (Hi1 & Hs1 & c1 & Hc1 & Hl1) (Hi2 & Hs2 & c2 & Hc2 & Hl2).
  split; [congruence|]. split; [congruence|].
  exists (c1 ++ c2). split.
  - rewrite Hc2, Hc1, <- app_assoc. reflexivity.
  - rewrite length_app. congruence.
Qed.

Lemma addSensors_loop_grows infos x sensors h :
  Forall is_Some infos ->
  exists created h',
    addSensors_loop Heap isThisMySenseable createSensor infos x sensors h
      = Ok (sensors ++ created, h') /\
    List.length created = accepting isThisMySenseable infos x.
Proof.
  intros Hinfos. revert sensors h.
  induction Hinfos as [|i infos [info ->] _ IH]; intros sensors h.
  - exists [], h. rewrite app_nil_r. split; reflexivity.
  - cbn [addSensors_loop]. unfold accepting. cbn [List.filter].
    destruct (isThisMySenseable info x).
    + destruct (createSensor info x h) as [s h1].
      destruct (IH (sensors ++ [s]) h1) as (created & h' & Hrun & Hlen).
      exists (s :: created), h'. split.
      * rewrite Hrun, <- app_assoc. reflexivity.
      * cbn [List.length]. f_equal. exact Hlen.
    + apply IH.
Qed.

Lemma addSensors_grows x (st : DM Heap) :
  Forall is_Some (m_sensorInfos (fst st)) ->
  exists st',
    addSensors x st = Ok st' /\
    grown Heap (accepting isThisMySenseable (m_sensorInfos (fst st)) x) st st'.
Proof.
  intros Hinfos. unfold tgDataManager_addSensorsIfAppropriate.
  destruct (addSensors_loop_grows _ x (m_sensors (fst st)) (snd st) Hinfos)
    as (created & h' & -> & Hlen).
  eexists. split; [reflexivity|].
  split; [reflexivity|]. split; [reflexivity|].
  exists created. split; [reflexivity|exact Hlen].
Qed.

Lemma setup_descendants_grows ds (st : DM Heap) :
  Forall is_Some (m_sensorInfos (fst st)) ->
  exists st',
    setup_descendants Heap isThisMySenseable createSensor ds st = Ok st' /\
    grown Heap (sum_list (map (accepting isThisMySenseable (m_sensorInfos (fst st))) ds)) st st'.
Proof.
  revert st. induction ds as [|d ds IH]; intros st Hinfos.
  - exists st. split; [reflexivity|].
    split; [reflexivity|]. split; [reflexivity|].
    exists []. rewrite app_nil_r. split; reflexivity.
  - cbn [setup_descendants map sum_list sum_list_with].
    destruct (addSensors_grows d st Hinfos) as (st1 & -> & Hg1).
    assert (Hi1 : m_sensorInfos (fst st1) = m_sensorInfos (fst st)) by apply Hg1.
    destruct (IH st1) as (st2 & -> & Hg2); [rewrite Hi1; exact Hinfos|].
    exists st2. split; [reflexivity|].
    rewrite Hi1 in Hg2. exact (grown_trans _ _ _ _ _ Hg1 Hg2).
Qed.

Lemma setup_loop_grows ss (st : DM Heap) :
  Forall is_Some (m_sensorInfos (fst st)) -> Forall is_Some ss ->
  exists st',
    setup_loop Heap isThisMySenseable createSensor getSenseableDescendants ss st = Ok st' /\
    grown Heap (due (m_sensorInfos (fst st)) ss) st st'.
Proof.
  intros Hinfos Hss. revert st Hinfos.
  induction Hss as [|s ss [a ->] _ IH]; intros st Hinfos.
  - exists st. split; [reflexivity|].
    split; [reflexivity|]. split; [reflexivity|].
    exists []. rewrite app_nil_r. split; reflexivity.
  - cbn [setup_loop]. unfold sensors_due. cbn [map sum_list sum_list_with].
    destruct (addSensors_grows (Some a) st Hinfos) as (st1 & -> & Hg1).
    assert (Hi1 : m_sensorInfos (fst st1) = m_sensorInfos (fst st)) by apply Hg1.
    destruct (setup_descendants_grows (getSenseableDescendants a) st1)
      as (st2 & -> & Hg2); [rewrite Hi1; exact Hinfos|].
    assert (Hi2 : m_sensorInfos (fst st2) = m_sensorInfos (fst st))
      by (rewrite <- Hi1; apply Hg2).
    destruct (IH st2) as (st3 & -> & Hg3); [rewrite Hi2; exact Hinfos|].
    exists st3. split; [reflexivity|].
    rewrite Hi1 in Hg2. rewrite Hi2 in Hg3.
    exact (grown_trans _ _ _ _ _ (grown_trans _ _ _ _ _ Hg1 Hg2) Hg3).
Qed.

Lemma setup_grows (st : DM Heap) :
  Forall is_Some (m_sensorInfos (fst st)) -> Forall is_Some (m_senseables (fst st)) ->
  exists st',
    setup st = Ok st' /\
    grown Heap (due (m_sensorInfos (fst st)) (m_senseables (fst st))) st st'.
Proof.
  intros Hinfos Hss. unfold tgDataManager_setup.
  destruct (setup_loop_grows _ st Hinfos Hss) as (st' & -> & Hg).
  exists st'. split; [reflexivity|exact Hg].
Qed.

(** ** setup *)

(** X11: on a manager whose sensor infos and senseables are all non-null,
    [setup] returns; it appends to [m_sensors], never removing or reordering
    what is there, exactly one new sensor for every pair of a sensor info and
    a senseable (or descendant of a senseable) that the info accepts, and it
    leaves [m_sensorInfos] and [m_senseables] as they were. *)
Theorem tgDataManager_setup_spec (st : DM Heap) :
  Forall is_Some (m_sensorInfos (fst st)) -> Forall is_Some (m_senseables (fst st)) ->
  exists st' created,
    setup st = Ok st' /\
    m_sensors (fst st') = m_sensors (fst st) ++ created /\
    List.length created = due (m_sensorInfos (fst st)) (m_senseables (fst st)) /\
    m_sensorInfos (fst st') = m_sensorInfos (fst st) /\
    m_senseables (fst st') = m_senseables (fst st).
Proof.
  intros Hinfos Hss.
  destruct (setup_grows st Hinfos Hss) as (st' & Hrun & Hi & Hs & created & Hc & Hlen).
  exists st', created. auto.
Qed.

(** ** teardown and the destructor *)

Lemma teardown_eq (st : DM Heap) :
  teardown st =
    (Returns, (mkDataManager [] (m_sensorInfos (fst st)) (m_senseables (fst st)),
               fold_left (delete_ptr Heap delete_tgSensor) (m_sensors (fst st)) (snd st))).
Proof. reflexivity. Qed.

Lemma Forall_nulled (l : list ptr) :
  Forall (fun p => p = None) (map (fun _ : ptr => @None addr) l).
Proof. induction l; constructor; [reflexivity|assumption]. Qed.

(** X12: [teardown] always returns (its two postcondition assertions hold),
    with [m_sensors] empty and the sensor infos and senseables kept, and a
    second [teardown] changes nothing.  The destructor after [teardown] does
    to the free store exactly what the destructor alone does: every sensor
    and every sensor info is deleted once, in order, and no sensor a second
    time; the senseables are neither deleted nor dropped, and the entries of
    the two other vectors are left null. *)
Theorem tgDataManager_teardown_dtor (st : DM Heap) :
  fst (teardown st) = Returns /\
  m_sensors (fst (snd (teardown st))) = [] /\
  m_sensorInfos (fst (snd (teardown st))) = m_sensorInfos (fst st) /\
  m_senseables (fst (snd (teardown st))) = m_senseables (fst st) /\
  teardown (snd (teardown st)) = (Returns, snd (teardown st)) /\
  snd (dtor (snd (teardown st))) = snd (dtor st) /\
  snd (dtor st) =
    fold_left (delete_ptr Heap delete_tgSensorInfo) (m_sensorInfos (fst st))
      (fold_left (delete_ptr Heap delete_tgSensor) (m_sensors (fst st)) (snd st)) /\
  m_senseables (fst (dtor st)) = m_senseables (fst st) /\
  Forall (fun p => p = None) (m_sensorInfos (fst (dtor st))) /\
  Forall (fun p => p = None) (m_sensors (fst (dtor st))).
Proof.
  rewrite !teardown_eq. unfold tgDataManager_dtor; cbn [fst snd m_sensors m_sensorInfos
    m_senseables fold_left].
  repeat split; apply Forall_nulled.
Qed.

(** ** Histories of calls *)

Lemma dm_call_keeps `{Scalar K} (c : DMCall K) (st : DM Heap) :
  no_null_entries Heap st ->
  exists st',
    dm_call Heap isThisMySenseable createSensor getSenseableDescendants delete_tgSensor c st
      = Ok st' /\
    no_null_entries Heap st'.
Proof.
  intros [Hinfos Hss]. destruct c as [p|p| | |dt]; cbn [dm_call].
  - destruct p as [a|].
    + rewrite tgDataManager_addSensorInfo_some. eexists. split; [reflexivity|].
      split; cbn [fst snd m_sensorInfos m_senseables]; [|exact Hss].
      apply Forall_app. split; [exact Hinfos|]. constructor; [eexists; reflexivity|constructor].
    + eexists. split; [reflexivity|]. split; assumption.
  - destruct p as [a|].
    + rewrite tgDataManager_addSenseable_some. eexists. split; [reflexivity|].
      split; cbn [fst snd m_sensorInfos m_senseables]; [exact Hinfos|].
      apply Forall_app. split; [exact Hss|]. constructor; [eexists; reflexivity|constructor].
    + eexists. split; [reflexivity|]. split; assumption.
  - destruct (setup_grows st Hinfos Hss) as (st' & Hrun & Hi & Hs & _).
    exists st'. split; [exact Hrun|]. split; [rewrite Hi|rewrite Hs]; assumption.
  - rewrite teardown_eq. eexists. split; [reflexivity|]. split; assumption.
  - unfold tgDataManager_step, invariant. destruct (sleb dt szero);
      (eexists; split; [reflexivity|]; split; assumption).
Qed.

(** X13: no history of public calls ([addSensorInfo], [addSenseable],
    [setup], [teardown], [step], whether they return or throw) on a freshly
    constructed manager ends in a null dereference or a failed assertion, and
    the manager never holds a null sensor info or senseable. *)
Theorem dm_calls_from_ctor `{Scalar K} (cs : list (DMCall K)) (h0 : Heap) :
  exists st,
    dm_calls Heap isThisMySenseable createSensor getSenseableDescendants delete_tgSensor
      cs (tgDataManager_ctor, h0) = Ok st /\
    Forall is_Some (m_sensorInfos (fst st)) /\
    Forall is_Some (m_senseables (fst st)).
Proof.
  assert (Hgen : forall st : DM Heap, no_null_entries Heap st ->
            exists st',
              dm_calls Heap isThisMySenseable createSensor getSenseableDescendants
                delete_tgSensor cs st = Ok st' /\ no_null_entries Heap st').
  { induction cs as [|c cs IH]; intros st Hst.
    - exists st. split; [reflexivity|exact Hst].
    - cbn [dm_calls]. destruct (dm_call_keeps c st Hst) as (st1 & -> & Hst1).
      apply IH, Hst1. }
  destruct (Hgen (tgDataManager_ctor, h0)) as (st & Hrun & Hinfos & Hss).
  - split; constructor.
  - exists st. auto.
Qed.

(** X14: [teardown] does not spoil a later [setup].  After [teardown] then
    [setup] the manager holds exactly the sensors due, however many it held
    before; [setup] twice in a row, without [teardown], holds the old sensors
    and twice the sensors due. *)
Theorem tgDataManager_setup_again (st : DM Heap) :
  Forall is_Some (m_sensorInfos (fst st)) -> Forall is_Some (m_senseables (fst st)) ->
  (exists st',
     setup (snd (teardown st)) = Ok st' /\
     List.length (m_sensors (fst st')) =
       due (m_sensorInfos (fst st)) (m_senseables (fst st))) /\
  (exists st1 st2,
     setup st = Ok st1 /\ setup st1 = Ok st2 /\
     List.length (m_sensors (fst st2)) =
       (List.length (m_sensors (fst st)) +
        2 * due (m_sensorInfos (fst st)) (m_senseables (fst st)))%nat).
Proof.
  intros Hinfos Hss. split.
  - rewrite teardown_eq.
    destruct (setup_grows (mkDataManager [] (m_sensorInfos (fst st)) (m_senseables (fst st)),
                           fold_left (delete_ptr Heap delete_tgSensor)
                             (m_sensors (fst st)) (snd st)) Hinfos Hss)
      as (st' & Hrun & _ & _ & created & Hc & Hlen).
    exists st'. split; [exact Hrun|]. rewrite Hc. exact Hlen.
  - destruct (setup_grows st Hinfos Hss) as (st1 & Hrun1 & Hi1 & Hs1 & c1 & Hc1 & Hl1).
    destruct (setup_grows st1) as (st2 & Hrun2 & _ & _ & c2 & Hc2 & Hl2);
      [rewrite Hi1; exact Hinfos|rewrite Hs1; exact Hss|].
    exists st1, st2. split; [exact Hrun1|]. split; [exact Hrun2|].
    rewrite Hc2, Hc1, !length_app, Hl1, Hl2, Hi1, Hs1. lia.
Qed.
End DataManagerFacts.

(** [setup] on [demo_manager]: info 1 accepts senseables 11 and 21, info 2
    accepts 10 and 12, so four sensors are due. *)
Lemma tgDataManager_setup_spec_witness :
  exists st',
    tgDataManager_setup nat demo_isThisMySenseable demo_createSensor
      demo_getSenseableDescendants (demo_manager, 0%nat) = Ok st' /\
    List.length (m_sensors (fst st')) = 4%nat.
Proof.
  destruct (tgDataManager_setup_spec nat demo_isThisMySenseable demo_createSensor
              demo_getSenseableDescendants (demo_manager, 0%nat))
    as (st' & created & Hrun & Hc & Hlen & _).
  - repeat constructor; eexists; reflexivity.
  - repeat constructor; eexists; reflexivity.
  - exists st'. split; [exact Hrun|]. rewrite Hc, length_app, Hlen. reflexivity.
Defined.

(** On [demo_manager]: four sensors after [teardown] and [setup], eight after
    two [setup]s. *)
Lemma tgDataManager_setup_again_witness :
  (exists st',
     tgDataManager_setup nat demo_isThisMySenseable demo_createSensor
       demo_getSenseableDescendants
       (snd (tgDataManager_teardown nat demo_delete (demo_manager, 0%nat))) = Ok st' /\
     List.length (m_sensors (fst st')) = 4%nat) /\
  (exists st1 st2,
     tgDataManager_setup nat demo_isThisMySenseable demo_createSensor
       demo_getSenseableDescendants (demo_manager, 0%nat) = Ok st1 /\
     tgDataManager_setup nat demo_isThisMySenseable demo_createSensor
       demo_getSenseableDescendants st1 = Ok st2 /\
     List.length (m_sensors (fst st2)) = 8%nat).
Proof.
  destruct (tgDataManager_setup_again nat demo_isThisMySenseable demo_createSensor
              demo_getSenseableDescendants demo_delete (demo_manager, 0%nat))
    as [(st' & Hrun & Hlen) (st1 & st2 & Hrun1 & Hrun2 & Hlen2)].
  - repeat constructor; eexists; reflexivity.
  - repeat constructor; eexists; reflexivity.
  - split.
    + exists st'. split; [exact Hrun|]. rewrite Hlen. reflexivity.
    + exists st1, st2. split; [exact Hrun1|]. split; [exact Hrun2|].
      rewrite Hlen2. reflexivity.
Defined.

(** ** toString *)

Lemma string_of_uint_digits (d : Decimal.uint) : all_digits (NilEmpty.string_of_uint d).
Proof. induction d; cbn; auto. Qed.

Lemma append_String (c : Ascii.ascii) (s t : string) :
  (String c s ++ t)%string = String c (s ++ t)%string.
Proof. reflexivity. Qed.

(** A run of digits ends where the first other character stands. *)
Lemma digits_then_other (d1 d2 : string) (c : Ascii.ascii) (t1 t2 : string) :
  all_digits d1 -> all_digits d2 -> is_digit c = false ->
  (d1 ++ String c t1 = d2 ++ String c t2)%string -> d1 = d2 /\ t1 = t2.
Proof.
  intros H1 H2 Hc. revert d2 H2.
  induction d1 as [|x d1 IH]; intros [|y d2] H2 E;
    rewrite ?append_String in E; change (append EmptyString ?s) with s in E; cbn in H1, H2.
  - injection E as ->. auto.
  - injection E as -> _. destruct H2 as [Hy _]. congruence.
  - injection E as -> _. destruct H1 as [Hx _]. congruence.
  - injection E as -> E. destruct H1 as [_ H1], H2 as [_ H2].
    destruct (IH H1 d2 H2 E) as [-> ->]. auto.
Qed.

Lemma string_of_size_inj (n1 n2 : nat) : string_of_size n1 = string_of_size n2 -> n1 = n2.
Proof.
  unfold string_of_size. intros E.
  apply (f_equal NilEmpty.uint_of_string) in E. rewrite !NilEmpty.usu in E.
  injection E as E. apply (f_equal Nat.of_uint) in E.
  rewrite !DecimalNat.Unsigned.of_to in E. exact E.
Qed.

(** X15: [toString] reports the three sizes and nothing else: two managers
    print the same text exactly when they hold the same number of sensors, of
    sensor infos and of senseables. *)
Theorem tgDataManager_toString_sizes (m1 m2 : tgDataManager) :
  tgDataManager_toString m1 = tgDataManager_toString m2 <->
  List.length (m_sensors m1) = List.length (m_sensors m2) /\
  List.length (m_sensorInfos m1) = List.length (m_sensorInfos m2) /\
  List.length (m_senseables m1) = List.length (m_senseables m2).
Proof.
  split.
  - unfold tgDataManager_toString. intros E. rewrite ?append_String in E.
    repeat match type of E with
           | String ?c _ = String ?c _ => injection E as E
           end.
    apply digits_then_other in E as [Ea E];
      [|apply string_of_uint_digits|apply string_of_uint_digits|reflexivity].
    rewrite ?append_String in E.
    repeat match type of E with
           | String ?c _ = String ?c _ => injection E as E
           end.
    apply digits_then_other in E as [Eb E];
      [|apply string_of_uint_digits|apply string_of_uint_digits|reflexivity].
    rewrite ?append_String in E.
    repeat match type of E with
           | String ?c _ = String ?c _ => injection E as E
           end.
    apply digits_then_other in E as [Ec _];
      [|apply string_of_uint_digits|apply string_of_uint_digits|reflexivity].
    auto using string_of_size_inj.
  - unfold tgDataManager_toString. intros (-> & -> & ->). reflexivity.
Qed.

(** The text for a manager with twelve sensors, one sensor info and no
    senseable, and what [operator<<] writes after it. *)
Example tgDataManager_toString_example :
  let m := mkDataManager (repeat None 12) [Some 1%N] [] in
  tgDataManager_toString m =
    ("tgDataManager with 12 sensors, 1 sensorInfos, and 0 senseable objects." ++ endl)%string /\
  tgDataManager_print "log: " m =
    ("log: tgDataManager with 12 sensors, 1 sensorInfos, and 0 senseable objects."
       ++ endl ++ endl)%string.
Proof. cbv zeta. split; vm_compute; reflexivity. Qed.
